(** * Wordle clone: guess evaluation and game progression (src/main.js)

    A shallow embedding of [main.js].  The page is the state: the tiles of
    the guess grid with their [data-letter] / [data-state] attributes, the
    keys of the virtual keyboard with their class lists, the alerts that were
    shown, and whether the two document listeners are attached.

    Not modelled: the CSS animation classes ([flip], [shake], [dance]) and the
    timers that drive them.  They never influence [data-letter],
    [data-state] or the class lists of the keys.  The [transitionend]
    callbacks of one submitted row run in tile order (the flips are started
    [index * 250] ms apart) while both listeners are detached, so a
    submission is one atomic step of the model.

    The markup and the two word modules are not among the sources.  The
    elements inside the guess grid are taken to be its tiles, the elements
    inside the keyboard that carry [data-key] its keys; the number of rows,
    the keys, the word list and the word of the day are parameters. *)

From Stdlib Require Import String Ascii List Arith Bool Lia.
From stdpp Require Import base list strings.

Local Open Scope string_scope.
Local Open Scope nat_scope.

(** ** JavaScript strings *)

Module JS.

(** [s.toLowerCase()] and [s.toUpperCase()], on ASCII. *)
Definition lower_ascii (c : ascii) : ascii :=
  let n := nat_of_ascii c in
  if (65 <=? n) && (n <=? 90) then ascii_of_nat (n + 32) else c.

Definition upper_ascii (c : ascii) : ascii :=
  let n := nat_of_ascii c in
  if (97 <=? n) && (n <=? 122) then ascii_of_nat (n - 32) else c.

Fixpoint toLowerCase (s : string) : string :=
  match s with
  | EmptyString => EmptyString
  | String c s' => String (lower_ascii c) (toLowerCase s')
  end.

Fixpoint toUpperCase (s : string) : string :=
  match s with
  | EmptyString => EmptyString
  | String c s' => String (upper_ascii c) (toUpperCase s')
  end.

(** [s[i]]: the one-character string at index [i], [None] for
    [undefined]. *)
Definition at_index (s : string) (i : nat) : option string :=
  match String.get i s with
  | Some c => Some (String c EmptyString)
  | None => None
  end.

(** [s.includes(t)]: [t] occurs in [s] as a substring. *)
Fixpoint includes (s t : string) : bool :=
  if String.prefix t s then true
  else match s with
       | EmptyString => false
       | String _ s' => includes s' t
       end.

(** String conversion of a possibly [undefined] value, as done by [+],
    by a template literal and by [includes]. *)
Definition to_string (o : option string) : string :=
  match o with
  | Some s => s
  | None => "undefined"
  end.

(** [a === b] on possibly [undefined] strings. *)
Definition strict_eq (a b : option string) : bool :=
  match a, b with
  | Some x, Some y => String.eqb x y
  | None, None => true
  | _, _ => false
  end.

(** [key.match(/^[a-z]$/)] is not null. *)
Definition is_lower_letter (key : string) : bool :=
  match key with
  | String c EmptyString =>
      let n := nat_of_ascii c in (97 <=? n) && (n <=? 122)
  | _ => false
  end.

End JS.

(** ** The page *)

Definition WORD_LENGTH : nat := 5.

(** A tile of the guess grid: [dataset.letter], [textContent],
    [dataset.state]. *)
Record Tile := mkTile {
  data_letter : option string;
  textContent : string;
  data_state : option string
}.

(** A key of the virtual keyboard: [dataset.key] and [classList]. *)
Record Key := mkKey {
  data_key : string;
  classList : list string
}.

(** One call of [showAlert]: the message and the duration ([None] for
    [null]). *)
Record Alert := mkAlert {
  message : string;
  duration : option nat
}.

(** [guessGrid]: the tiles in document order.  [keyboard]: the keys in
    document order.  [alertContainer]: the alerts, newest first (the removal
    of an alert after its duration is not modelled).  [listening]: the click
    and keydown listeners are attached. *)
Record Page := mkPage {
  guessGrid : list Tile;
  keyboard : list Key;
  alertContainer : list Alert;
  listening : bool
}.

Definition empty_tile : Tile := mkTile None "" None.

(** [classList.add(c)] *)
Definition classList_add (c : string) (k : Key) : Key :=
  if existsb (String.eqb c) (classList k) then k
  else mkKey (data_key k) (classList k ++ [c]).

(** Selectors.  [querySelectorAll] gives the positions of the matching
    elements in document order, [querySelector] the first of them. *)
Fixpoint matching_from {A} (sel : A → bool) (i : nat) (l : list A) : list nat :=
  match l with
  | [] => []
  | x :: l' =>
      if sel x then i :: matching_from sel (S i) l'
      else matching_from sel (S i) l'
  end.

Definition querySelectorAll {A} (sel : A → bool) (l : list A) : list nat :=
  matching_from sel 0 l.

Definition querySelector {A} (sel : A → bool) (l : list A) : option nat :=
  head (querySelectorAll sel l).

(** [:not([data-letter])] *)
Definition not_data_letter (t : Tile) : bool :=
  match data_letter t with
  | None => true
  | Some _ => false
  end.

(** [[data-state="active"]] *)
Definition state_active (t : Tile) : bool :=
  JS.strict_eq (data_state t) (Some "active").

(** [[data-key="letter"i]]: equal up to ASCII case (for a letter that needs
    no escaping inside the selector). *)
Definition key_matches (letter : string) (k : Key) : bool :=
  String.eqb (JS.toLowerCase (data_key k)) (JS.toLowerCase letter).

Definition set_grid (g : list Tile) (p : Page) : Page :=
  mkPage g (keyboard p) (alertContainer p) (listening p).

Definition set_keyboard (kb : list Key) (p : Page) : Page :=
  mkPage (guessGrid p) kb (alertContainer p) (listening p).

Definition startInteraction (p : Page) : Page :=
  mkPage (guessGrid p) (keyboard p) (alertContainer p) true.

Definition stopInteraction (p : Page) : Page :=
  mkPage (guessGrid p) (keyboard p) (alertContainer p) false.

(** [alertContainer.prepend(alert)] *)
Definition showAlert (msg : string) (d : option nat) (p : Page) : Page :=
  mkPage (guessGrid p) (keyboard p) (mkAlert msg d :: alertContainer p)
         (listening p).

Definition getActiveTiles (p : Page) : list nat :=
  querySelectorAll state_active (guessGrid p).

(** ** Input *)

(** [pressKey].  When no tile is left without [data-letter], [nextTile] is
    [null] and the assignment at line 75 throws before anything is written:
    the handler ends with the page as it was. *)
Definition pressKey (key : string) (p : Page) : Page :=
  if WORD_LENGTH <=? length (getActiveTiles p) then p
  else
    match querySelector not_data_letter (guessGrid p) with
    | None => p
    | Some nextTile =>
        set_grid
          (<[nextTile := mkTile (Some (JS.toLowerCase key)) key (Some "active")]>
             (guessGrid p)) p
    end.

(** [deleteKey] *)
Definition deleteKey (p : Page) : Page :=
  match last (getActiveTiles p) with
  | None => p
  | Some lastTile => set_grid (<[lastTile := empty_tile]> (guessGrid p)) p
  end.

Section Game.

(** The two imported modules are not part of the sources: the word list
    and the word of the day are parameters. *)
Variable dictionary : list string.
Variable targetWord : string.

(** [checkWinLose] *)
Definition checkWinLose (guess : string) (p : Page) : Page :=
  if String.eqb guess targetWord then
    stopInteraction (showAlert "You Win" (Some 5000) p)
  else
    let remainingTiles := querySelectorAll not_data_letter (guessGrid p) in
    if length remainingTiles =? 0 then
      stopInteraction (showAlert (JS.toUpperCase targetWord) None p)
    else p.

(** What one call of [flipTile] captures for its [transitionend]
    callback: the tile, its index in the row, the length of the row, the
    guess, the tile's letter and the key found for it. *)
Record Flip := mkFlip {
  f_tile : nat;
  f_index : nat;
  f_length : nat;
  f_guess : string;
  f_letter : option string;
  f_key : option nat
}.

Definition flipTile (tile index : nat) (array : list nat) (guess : string)
    (p : Page) : Flip :=
  let letter := (guessGrid p !! tile) ≫= data_letter in
  mkFlip tile index (length array) guess letter
         (querySelector (key_matches (JS.to_string letter)) (keyboard p)).

(** The state the callback gives the tile (lines 129-138). *)
Definition flip_state (index : nat) (letter : option string) : string :=
  if JS.strict_eq (JS.at_index targetWord index) letter then "correct"
  else if JS.includes targetWord (JS.to_string letter) then "wrong-location"
  else "wrong".

Definition set_state (s : string) (t : Tile) : Tile :=
  mkTile (data_letter t) (textContent t) (Some s).

(** The first [transitionend] callback of a tile, followed for the last
    tile of the row by its second one.  When no key was found, [key] is
    [null]: [key.classList.add] throws after the tile's state is written
    and the rest of the callback is lost. *)
Definition transitionend (f : Flip) (p : Page) : Page :=
  let s := flip_state (f_index f) (f_letter f) in
  let p1 := set_grid (alter (set_state s) (f_tile f) (guessGrid p)) p in
  match f_key f with
  | None => p1
  | Some key =>
      let p2 := set_keyboard (alter (classList_add s) key (keyboard p1)) p1 in
      if f_index f + 1 =? f_length f
      then checkWinLose (f_guess f) (startInteraction p2)
      else p2
  end.

(** [submitGuess] *)
Definition submitGuess (p : Page) : Page :=
  let activeTiles := getActiveTiles p in
  if negb (length activeTiles =? WORD_LENGTH) then
    showAlert "Not enough letters" (Some 1000) p
  else
    let guess :=
      foldl (λ word tile,
               word ++ JS.to_string ((guessGrid p !! tile) ≫= data_letter))
            "" activeTiles in
    if negb (existsb (String.eqb guess) dictionary) then
      showAlert "Not in word list" (Some 1000) p
    else
      let p1 := stopInteraction p in
      let flips :=
        imap (λ index tile, flipTile tile index activeTiles guess p1)
             activeTiles in
      foldl (λ q f, transitionend f q) p1 flips.

(** ** Events *)

(** The element a click lands on, as far as [handleMouseClick] looks at
    it: its [data-key] if it has one, and whether it has [data-enter] and
    [data-delete]. *)
Record Target := mkTarget {
  t_key : option string;
  t_enter : bool;
  t_delete : bool
}.

Inductive Event :=
| click (target : Target)
| keydown (key : string).

Definition handleMouseClick (target : Target) (p : Page) : Page :=
  match t_key target with
  | Some key => pressKey key p
  | None =>
      if t_enter target then submitGuess p
      else if t_delete target then deleteKey p
      else p
  end.

Definition handleKeyPress (key : string) (p : Page) : Page :=
  if String.eqb key "Enter" then submitGuess p
  else if String.eqb key "Backspace" || String.eqb key "Delete"
  then deleteKey p
  else if JS.is_lower_letter key then pressKey key p
  else p.

(** An event reaches its handler only while the listeners are attached. *)
Definition dispatch (e : Event) (p : Page) : Page :=
  if listening p then
    match e with
    | click target => handleMouseClick target p
    | keydown key => handleKeyPress key p
    end
  else p.

Definition run (es : list Event) (p : Page) : Page :=
  foldl (λ q e, dispatch e q) p es.

End Game.

(** ** Observations used by the properties *)

Definition letters (w : string) : list ascii := list_ascii_of_string w.

Definition letter_string (c : ascii) : string := String c EmptyString.

(** The states given to the tiles of a row that holds the guess [G], one
    letter per tile, when the word of the day is [S]: [flip_state] at each
    index.  ([submitGuess_evaluate] below: these are the states of the row
    on the page after a valid submission.) *)
Definition evaluate (S G : string) : list string :=
  imap (λ index c, flip_state S index (Some (letter_string c))) (letters G).

(** A tile state that marks the letter as one of the word. *)
Definition marked (s : string) : bool :=
  String.eqb s "correct" || String.eqb s "wrong-location".

(** Number of tiles of the row that hold [c] and are marked. *)
Definition marks (c : ascii) (S G : string) : nat :=
  length (List.filter (λ gs, Ascii.eqb (fst gs) c && marked (snd gs))
                      (combine (letters G) (evaluate S G))).

Definition occurrences (c : ascii) (w : string) : nat :=
  count_occ ascii_dec (letters w) c.

(** The same count on the page: the tiles at the positions [tiles] that
    hold the letter [c] and carry a state that marks it. *)
Definition tile_marked (c : ascii) (t : Tile) : bool :=
  JS.strict_eq (data_letter t) (Some (letter_string c)) &&
  match data_state t with
  | Some s => marked s
  | None => false
  end.

Definition marked_tiles (c : ascii) (tiles : list nat) (p : Page) : nat :=
  length (List.filter
            (λ tile, match guessGrid p !! tile with
                     | Some t => tile_marked c t
                     | None => false
                     end)
            tiles).

(** The outcome of the game as the page shows it: [checkWinLose] announces a
    win with the alert "You Win" (5000 ms) and a loss with the only alert
    that is never hidden (duration [null]). *)
Inductive GameOutcome := in_progress | won | lost.

Definition win_alert (a : Alert) : bool :=
  String.eqb (message a) "You Win" &&
  match duration a with Some d => d =? 5000 | None => false end.

Definition loss_alert (a : Alert) : bool :=
  match duration a with Some _ => false | None => true end.

Definition outcome (p : Page) : GameOutcome :=
  if existsb win_alert (alertContainer p) then won
  else if existsb loss_alert (alertContainer p) then lost
  else in_progress.

(** Rows of the grid that are still entirely without letters. *)
Definition empty_rows (p : Page) : nat :=
  length (querySelectorAll not_data_letter (guessGrid p)) / WORD_LENGTH.

(** The word held by the active tiles, as [submitGuess] builds it. *)
Definition current_guess (p : Page) : string :=
  foldl (λ word tile,
           word ++ JS.to_string ((guessGrid p !! tile) ≫= data_letter))
        "" (getActiveTiles p).

(** The states of the tiles at the positions [tiles]. *)
Definition states_at (tiles : list nat) (p : Page) : list (option string) :=
  map (λ tile, (guessGrid p !! tile) ≫= data_state) tiles.

(** The page when the script starts: [rows] rows of [WORD_LENGTH] empty
    tiles, the keys of the markup, no alert, listeners attached (line 20). *)
Definition initial (rows : nat) (keys : list Key) : Page :=
  mkPage (replicate (rows * WORD_LENGTH) empty_tile) keys [] true.

Inductive reachable (dictionary : list string) (targetWord : string)
    (rows : nat) (keys : list Key) : Page → Prop :=
| reachable_initial : reachable dictionary targetWord rows keys (initial rows keys)
| reachable_dispatch e p :
    reachable dictionary targetWord rows keys p →
    reachable dictionary targetWord rows keys (dispatch dictionary targetWord e p).

(** The keyboard overlay read with the precedence
    [correct > wrong-location > wrong > unknown]: the best of the status
    classes on the key of the letter.  The script itself keeps only the
    class list of each key; this reading of it is what the monotonicity of
    the overlay is stated on. *)
Inductive Status := unknown | wrong | wrong_location | correct.

Definition rank (s : Status) : nat :=
  match s with
  | unknown => 0
  | wrong => 1
  | wrong_location => 2
  | correct => 3
  end.

Definition has_class (c : string) (k : Key) : bool :=
  existsb (String.eqb c) (classList k).

Definition best_status (k : Key) : Status :=
  if has_class "correct" k then correct
  else if has_class "wrong-location" k then wrong_location
  else if has_class "wrong" k then wrong
  else unknown.

(** The key of a letter, found as [flipTile] finds it. *)
Definition key_of (letter : string) (p : Page) : option Key :=
  querySelector (key_matches letter) (keyboard p) ≫= λ key, keyboard p !! key.

Definition statusOf (letter : string) (p : Page) : Status :=
  match key_of letter p with
  | Some k => best_status k
  | None => unknown
  end.

(** A key keeps its [data-key] and every class it has. *)
Definition key_le (k k' : Key) : Prop :=
  data_key k = data_key k' ∧ ∀ c, In c (classList k) → In c (classList k').

Definition keyboard_le (kb kb' : list Key) : Prop := Forall2 key_le kb kb'.

(** The scenarios use the usual markup: six rows, one key per letter. *)
Definition qwerty : list Key :=
  map (λ c, mkKey (letter_string c) []) (letters "QWERTYUIOPASDFGHJKLZXCVBNM").

(** Typing a word on the physical keyboard and pressing Enter. *)
Definition typing (w : string) : list Event :=
  (map (λ c, keydown (letter_string c)) (letters w) ++ [keydown "Enter"])%list.

(** The grid once every active tile has been given its state: the active
    tiles are numbered in document order, as [activeTiles.forEach] does. *)
Fixpoint flip_grid (targetWord : string) (index : nat) (g : list Tile)
    : list Tile :=
  match g with
  | [] => []
  | t :: g' =>
      if state_active t
      then set_state (flip_state targetWord index (data_letter t)) t
             :: flip_grid targetWord (S index) g'
      else t :: flip_grid targetWord index g'
  end.

(** The write of one [transitionend] callback to the grid. *)
Definition flip_tile_step (targetWord : string) (g : list Tile) (f : Flip)
    : list Tile :=
  alter (set_state (flip_state targetWord (f_index f) (f_letter f)))
        (f_tile f) g.

(** [dictionary.includes(w)] *)
Definition in_dictionary (dictionary : list string) (w : string) : bool :=
  existsb (String.eqb w) dictionary.

(** The key that [flipTile] finds for the last active tile. *)
Definition last_key (p : Page) : option nat :=
  last (getActiveTiles p) ≫= λ tile,
    querySelector
      (key_matches (JS.to_string ((guessGrid p !! tile) ≫= data_letter)))
      (keyboard p).

(** The shape of the board in every reachable page of a game with [rows]
    rows: an active tile has a letter, the active tiles fit in a row, the
    tiles with a letter that are no longer active make up whole rows, a
    row's worth of tiles is still open while the listeners are attached (in
    a grid that has rows at all), and the listeners are detached once the
    game is decided. *)
Record board_inv (rows : nat) (p : Page) : Prop := mk_board_inv {
  inv_lettered :
    Forall (λ t, state_active t = true → not_data_letter t = false)
           (guessGrid p);
  inv_active : length (getActiveTiles p) ≤ WORD_LENGTH;
  inv_rows :
    ∃ k, length (querySelectorAll not_data_letter (guessGrid p))
         + length (getActiveTiles p) + k * WORD_LENGTH = rows * WORD_LENGTH;
  inv_open :
    0 < rows → listening p = true →
    WORD_LENGTH ≤ length (querySelectorAll not_data_letter (guessGrid p))
                  + length (getActiveTiles p);
  inv_decided : outcome p ≠ in_progress → listening p = false
}.

(** Pressing the letters of a word on the physical keyboard. *)
Definition letter_keys (w : string) : list Event :=
  map (λ c, keydown (letter_string c)) (letters w).

(** The active tiles of the page hold the letters of [G], one per tile. *)
Definition row_holds (G : string) (p : Page) : Prop :=
  map (λ tile, (guessGrid p !! tile) ≫= data_letter) (getActiveTiles p) =
  map (λ c, Some (letter_string c)) (letters G).

(** The usual markup, as far as the properties need it: the keyboard has a
    key for every letter that the physical keyboard can enter, and an
    element with [data-key] that can be clicked is a key of the keyboard. *)
Definition keyboard_complete (keys : list Key) : Prop :=
  ∀ key, JS.is_lower_letter key = true →
         is_Some (querySelector (key_matches key) keys).

Definition on_page (keys : list Key) (e : Event) : Prop :=
  match e with
  | click target =>
      match t_key target with
      | Some key => In key (map data_key keys)
      | None => True
      end
  | keydown _ => True
  end.

(** The pages reached by events on such a page. *)
Inductive played (dictionary : list string) (targetWord : string)
    (rows : nat) (keys : list Key) : Page → Prop :=
| played_initial : played dictionary targetWord rows keys (initial rows keys)
| played_dispatch e p :
    played dictionary targetWord rows keys p →
    on_page keys e →
    played dictionary targetWord rows keys (dispatch dictionary targetWord e p).

(** Every letter on a tile has a key. *)
Definition keyed (keys : list Key) (g : list Tile) : Prop :=
  Forall (λ t, ∀ letter, data_letter t = Some letter →
                         is_Some (querySelector (key_matches letter) keys)) g.

(** ** The layout of the board *)

(** One of the three states that [flipTile] writes. *)
Definition is_status (o : option string) : bool :=
  match o with
  | Some s =>
      String.eqb s "correct" || String.eqb s "wrong-location" ||
      String.eqb s "wrong"
  | None => false
  end.

(** A tile of a submitted row: it has a letter and an evaluated state. *)
Definition tile_done (t : Tile) : bool :=
  negb (not_data_letter t) && is_status (data_state t).

(** A tile of the row being typed: it has a letter and is active. *)
Definition tile_active (t : Tile) : bool :=
  negb (not_data_letter t) && state_active t.

(** The grid is made of submitted tiles, in whole rows, then the active
    tiles of the current row, then untouched tiles. *)
Definition board_shape (rows : nat) (g done act : list Tile) (n : nat) : Prop :=
  g = (done ++ act ++ replicate n empty_tile)%list ∧
  Forall (λ t, tile_done t = true) done ∧
  Forall (λ t, tile_active t = true) act ∧
  (∃ k, length done = k * WORD_LENGTH) ∧
  length act ≤ WORD_LENGTH ∧
  length g = rows * WORD_LENGTH.

(** The tile that [pressKey] writes. *)
Definition typed_tile (key : string) : Tile :=
  mkTile (Some (JS.toLowerCase key)) key (Some "active").

(** A word of lower-case letters, as the physical keyboard enters it. *)
Definition lower_word (w : string) : bool :=
  forallb (λ c, JS.is_lower_letter (letter_string c)) (letters w).

(** The word that a list of tiles holds, as [submitGuess] concatenates it. *)
Definition word_of (tiles : list Tile) : string :=
  foldl (λ word t, word ++ JS.to_string (data_letter t)) "" tiles.

(** The keyboard overlay covers the board: the state of every submitted
    tile is among the classes of the key of its letter (when the keyboard
    has such a key). *)
Definition overlay_covers (p : Page) : Prop :=
  ∀ i t letter s k,
    guessGrid p !! i = Some t →
    data_letter t = Some letter →
    data_state t = Some s →
    s ≠ "active" →
    key_of letter p = Some k →
    In s (classList k).

(** What the board looks like once the page shows an outcome.  After a win
    the newest alert is "You Win", no tile is active and the last submitted
    row spells the word of the day.  After a loss the newest alert is the
    word of the day in upper case, and no tile is active or without a
    letter. *)
Definition decided_board (targetWord : string) (p : Page) : Prop :=
  match outcome p with
  | in_progress => True
  | won =>
      head (alertContainer p) = Some (mkAlert "You Win" (Some 5000)) ∧
      getActiveTiles p = [] ∧
      ∃ done row n,
        guessGrid p = (done ++ row ++ replicate n empty_tile)%list ∧
        length row = WORD_LENGTH ∧
        Forall (λ t, tile_done t = true) row ∧
        word_of row = targetWord
  | lost =>
      head (alertContainer p) =
        Some (mkAlert (JS.toUpperCase targetWord) None) ∧
      getActiveTiles p = [] ∧
      querySelectorAll not_data_letter (guessGrid p) = []
  end.

(** The text shown in a tile and the letter kept for it go together: a
    tile without letter shows nothing, a tile with a letter keeps the
    lower-cased text. *)
Definition tile_consistent (t : Tile) : Prop :=
  match data_letter t with
  | None => textContent t = ""
  | Some letter => letter = JS.toLowerCase (textContent t)
  end.

(** The four alerts of the script. *)
Definition script_alerts (targetWord : string) : list Alert :=
  [ mkAlert "Not enough letters" (Some 1000);
    mkAlert "Not in word list" (Some 1000);
    mkAlert "You Win" (Some 5000);
    mkAlert (JS.toUpperCase targetWord) None ].
(** * Properties *)

Local Open Scope list_scope.

(** ** Strings *)

Lemma letters_lookup (w : string) (i : nat) :
  letters w !! i = String.get i w.
Proof.
  revert i. induction w as [|c w IH]; intros [|i]; simpl; auto.
Qed.

Lemma letters_length (w : string) : length (letters w) = String.length w.
Proof. induction w; simpl; auto. Qed.

Lemma letter_string_eqb (a b : ascii) :
  String.eqb (letter_string a) (letter_string b) = Ascii.eqb a b.
Proof. unfold letter_string. simpl. destruct (Ascii.eqb a b); reflexivity. Qed.

Lemma strict_eq_at_index (w : string) (i : nat) (c : ascii) :
  JS.strict_eq (JS.at_index w i) (Some (letter_string c)) = true ↔
  String.get i w = Some c.
Proof.
  unfold JS.at_index. destruct (String.get i w) as [d|]; cbn [JS.strict_eq].
  - change (String d EmptyString) with (letter_string d).
    rewrite letter_string_eqb, Ascii.eqb_eq.
    split; congruence.
  - split; discriminate.
Qed.

Lemma prefix_letter (c : ascii) (w : string) :
  String.prefix (letter_string c) w =
  match w with
  | EmptyString => false
  | String d _ => Ascii.eqb c d
  end.
Proof.
  destruct w as [|d w]; simpl; auto.
  destruct (ascii_dec c d) as [->|Hne].
  - rewrite Ascii.eqb_refl. destruct w; reflexivity.
  - apply Ascii.eqb_neq in Hne. rewrite Hne. reflexivity.
Qed.

(** [includes] of a single letter is membership among the letters. *)
Lemma includes_letter (w : string) (c : ascii) :
  JS.includes w (letter_string c) = true ↔ In c (letters w).
Proof.
  induction w as [|d w IH].
  - simpl. split; [discriminate | tauto].
  - cbn [JS.includes]. rewrite prefix_letter.
    destruct (Ascii.eqb c d) eqn:E.
    + apply Ascii.eqb_eq in E. subst. simpl. tauto.
    + apply Ascii.eqb_neq in E. rewrite IH. simpl. split; [tauto|].
      intros [H|H]; [congruence | exact H].
Qed.

Lemma get_In (w : string) (i : nat) (c : ascii) :
  String.get i w = Some c → In c (letters w).
Proof.
  rewrite <- letters_lookup. intros H.
  apply list_elem_of_In, list_elem_of_lookup. eauto.
Qed.

Lemma includes_occurrences (w : string) (c : ascii) :
  JS.includes w (letter_string c) = true ↔ 0 < occurrences c w.
Proof.
  rewrite includes_letter. unfold occurrences.
  apply (count_occ_In ascii_dec).
Qed.

(** ** The tile states of a row *)

Lemma flip_state_cases (S : string) (i : nat) (letter : option string) :
  (flip_state S i letter = "correct" ∧
   JS.strict_eq (JS.at_index S i) letter = true) ∨
  (flip_state S i letter = "wrong-location" ∧
   JS.strict_eq (JS.at_index S i) letter = false ∧
   JS.includes S (JS.to_string letter) = true) ∨
  (flip_state S i letter = "wrong" ∧
   JS.strict_eq (JS.at_index S i) letter = false ∧
   JS.includes S (JS.to_string letter) = false).
Proof.
  unfold flip_state.
  destruct (JS.strict_eq _ _); [tauto|].
  destruct (JS.includes _ _); tauto.
Qed.

Lemma flip_state_not_active (S : string) (i : nat) (letter : option string) :
  String.eqb (flip_state S i letter) "active" = false.
Proof.
  destruct (flip_state_cases S i letter) as [[-> _]|[[-> _]|[-> _]]];
    reflexivity.
Qed.

Lemma evaluate_lookup (S G : string) (i : nat) :
  evaluate S G !! i =
  (λ c, flip_state S i (Some (letter_string c))) <$> String.get i G.
Proof. unfold evaluate. rewrite list_lookup_imap, letters_lookup. reflexivity. Qed.

Lemma evaluate_length (S G : string) :
  length (evaluate S G) = String.length G.
Proof. unfold evaluate. rewrite length_imap. apply letters_length. Qed.

(** The mark of a letter does not depend on where it stands. *)
Lemma marked_flip_state (S : string) (i : nat) (c : ascii) :
  marked (flip_state S i (Some (letter_string c))) =
  JS.includes S (letter_string c).
Proof.
  destruct (flip_state_cases S i (Some (letter_string c)))
    as [[-> H]|[[-> [_ H]]|[-> [_ H]]]]; cbn [JS.to_string] in H.
  - apply strict_eq_at_index, get_In, includes_letter in H.
    rewrite H. reflexivity.
  - rewrite H. reflexivity.
  - rewrite H. reflexivity.
Qed.

(** ** Selectors *)

Section Selectors.

Context {A : Type} (sel : A → bool).

Lemma matching_from_elem (i off : nat) (l : list A) :
  i ∈ matching_from sel off l ↔
  ∃ x, off ≤ i ∧ l !! (i - off) = Some x ∧ sel x = true.
Proof.
  revert off. induction l as [|y l IH]; intros off; simpl.
  - split; [intros H; inversion H | intros (x & _ & H & _); discriminate].
  - assert (Hrest : i ∈ matching_from sel (S off) l ↔
              ∃ x, off < i ∧ (y :: l) !! (i - off) = Some x ∧ sel x = true).
    { rewrite IH. split; intros (x & Hle & Hx & Hs); exists x;
        (split; [lia|]); split; auto.
      - replace (i - off) with (S (i - S off)) by lia. exact Hx.
      - replace (i - off) with (S (i - S off)) in Hx by lia. exact Hx. }
    destruct (sel y) eqn:Hy.
    + rewrite elem_of_cons, Hrest. split.
      * intros [->|(x & Hlt & Hx & Hs)].
        -- exists y. rewrite Nat.sub_diag. auto.
        -- exists x. split; [lia|auto].
      * intros (x & Hle & Hx & Hs).
        destruct (decide (i = off)) as [->|Hne]; [by left|].
        right. exists x. split; [lia|auto].
    + rewrite Hrest. split; intros (x & Hle & Hx & Hs); exists x.
      * split; [lia|auto].
      * split; [|auto].
        destruct (decide (i = off)) as [->|Hne]; [|lia].
        rewrite Nat.sub_diag in Hx. simpl in Hx. congruence.
Qed.

Lemma querySelectorAll_elem (i : nat) (l : list A) :
  i ∈ querySelectorAll sel l ↔ ∃ x, l !! i = Some x ∧ sel x = true.
Proof.
  unfold querySelectorAll. rewrite matching_from_elem, Nat.sub_0_r.
  split; intros (x & H); exists x; [tauto | split; [lia | tauto]].
Qed.

Lemma matching_from_length (off : nat) (l : list A) :
  length (matching_from sel off l) = length (matching_from sel 0 l).
Proof.
  revert off. induction l as [|y l IH]; intros off; simpl; auto.
  destruct (sel y); simpl; rewrite (IH (S off)), (IH 1); reflexivity.
Qed.

Lemma querySelectorAll_cons (y : A) (l : list A) :
  length (querySelectorAll sel (y :: l)) =
  Nat.b2n (sel y) + length (querySelectorAll sel l).
Proof.
  unfold querySelectorAll. simpl.
  destruct (sel y); simpl; rewrite (matching_from_length 1); reflexivity.
Qed.

Lemma querySelectorAll_le (l : list A) :
  length (querySelectorAll sel l) ≤ length l.
Proof.
  induction l as [|y l IH]; [reflexivity|].
  rewrite querySelectorAll_cons. simpl. destruct (sel y); simpl; lia.
Qed.

(** Replacing one element moves the number of matches by that element
    only. *)
Lemma querySelectorAll_insert (i : nat) (x y : A) (l : list A) :
  l !! i = Some x →
  length (querySelectorAll sel (<[i:=y]> l)) + Nat.b2n (sel x) =
  length (querySelectorAll sel l) + Nat.b2n (sel y).
Proof.
  revert i. induction l as [|z l IH]; intros [|i] H; simpl in H;
    try discriminate.
  - injection H as ->. simpl. rewrite !querySelectorAll_cons. lia.
  - simpl. rewrite !querySelectorAll_cons.
    specialize (IH i H). lia.
Qed.

Lemma querySelector_Some (i : nat) (l : list A) :
  querySelector sel l = Some i → ∃ x, l !! i = Some x ∧ sel x = true.
Proof.
  unfold querySelector. intros H. apply querySelectorAll_elem.
  destruct (querySelectorAll sel l); simpl in H; [discriminate|].
  injection H as ->. by left.
Qed.

Lemma querySelector_is_Some (l : list A) :
  0 < length (querySelectorAll sel l) → is_Some (querySelector sel l).
Proof.
  unfold querySelector. destruct (querySelectorAll sel l); simpl; [lia|eauto].
Qed.

Lemma last_querySelectorAll (i : nat) (l : list A) :
  last (querySelectorAll sel l) = Some i →
  ∃ x, l !! i = Some x ∧ sel x = true.
Proof.
  intros H. apply querySelectorAll_elem.
  apply last_Some in H as [l' ->].
  apply elem_of_app. right. by left.
Qed.

Lemma last_querySelectorAll_None (l : list A) :
  length (querySelectorAll sel l) = 0 → last (querySelectorAll sel l) = None.
Proof. destruct (querySelectorAll sel l); [reflexivity | discriminate]. Qed.

End Selectors.

(** ** What a submission does to the grid *)

Section Flips.

Variable targetWord : string.

Lemma checkWinLose_guessGrid (guess : string) (p : Page) :
  guessGrid (checkWinLose targetWord guess p) = guessGrid p.
Proof.
  unfold checkWinLose.
  destruct (String.eqb guess targetWord); [reflexivity|].
  simpl. destruct (_ =? 0); reflexivity.
Qed.

Lemma checkWinLose_keyboard (guess : string) (p : Page) :
  keyboard (checkWinLose targetWord guess p) = keyboard p.
Proof.
  unfold checkWinLose.
  destruct (String.eqb guess targetWord); [reflexivity|].
  simpl. destruct (_ =? 0); reflexivity.
Qed.

Lemma transitionend_guessGrid (f : Flip) (p : Page) :
  guessGrid (transitionend targetWord f p) = flip_tile_step targetWord (guessGrid p) f.
Proof.
  unfold transitionend. destruct (f_key f); [|reflexivity].
  destruct (_ =? _); [|reflexivity].
  rewrite checkWinLose_guessGrid. reflexivity.
Qed.

Lemma transitionend_keyboard (f : Flip) (p : Page) :
  keyboard (transitionend targetWord f p) =
  match f_key f with
  | None => keyboard p
  | Some key =>
      alter (classList_add (flip_state targetWord (f_index f) (f_letter f)))
            key (keyboard p)
  end.
Proof.
  unfold transitionend. destruct (f_key f); [|reflexivity].
  destruct (_ =? _); [|reflexivity].
  rewrite checkWinLose_keyboard. reflexivity.
Qed.

Lemma foldl_transitionend_guessGrid (fl : list Flip) (p : Page) :
  guessGrid (foldl (λ q f, transitionend targetWord f q) p fl) =
  foldl (flip_tile_step targetWord) (guessGrid p) fl.
Proof.
  revert p. induction fl as [|f fl IH]; intros p; simpl; [reflexivity|].
  rewrite IH, transitionend_guessGrid. reflexivity.
Qed.

(** Running the callbacks of the active tiles, in order, is [flip_grid]. *)
Lemma flips_flip_grid (l pre : list Tile) (j0 : nat) (p1 : Page)
    (array : list nat) (guess : string) :
  (∀ i, length pre ≤ i →
        (guessGrid p1 !! i) ≫= data_letter = ((pre ++ l) !! i) ≫= data_letter) →
  foldl (flip_tile_step targetWord) (pre ++ l)
        (imap (λ j tile, flipTile tile (j0 + j) array guess p1)
              (matching_from state_active (length pre) l)) =
  pre ++ flip_grid targetWord j0 l.
Proof.
  revert pre j0. induction l as [|y l IH]; intros pre j0 Hlet; [reflexivity|].
  simpl. destruct (state_active y) eqn:Hy.
  - simpl. unfold flip_tile_step at 2. simpl.
    rewrite Nat.add_0_r, (Hlet (length pre)) by lia.
    replace (length pre) with (length pre + 0) at 1 2 by lia.
    rewrite lookup_app_r, alter_app_r by lia.
    rewrite Nat.add_0_r, Nat.sub_diag. simpl.
    set (y' := set_state _ y).
    rewrite (cons_middle y' pre), app_assoc.
    replace (S (length pre)) with (length (pre ++ [y']))
      by (rewrite length_app; simpl; lia).
    rewrite (imap_ext _ (λ j tile, flipTile tile (S j0 + j) array guess p1)).
    2:{ intros j tile _. simpl. f_equal. lia. }
    rewrite IH.
    + rewrite <- app_assoc. reflexivity.
    + intros i Hi. rewrite length_app in Hi. simpl in Hi.
      rewrite Hlet by lia.
      rewrite <- app_assoc. simpl.
      rewrite !lookup_app_r by lia.
      destruct (i - length pre) as [|k] eqn:E; [lia|]. reflexivity.
  - rewrite (cons_middle y pre), app_assoc.
    replace (S (length pre)) with (length (pre ++ [y]))
      by (rewrite length_app; simpl; lia).
    rewrite IH.
    + rewrite <- app_assoc. reflexivity.
    + intros i Hi. rewrite length_app in Hi. simpl in Hi.
      rewrite Hlet by lia. rewrite <- app_assoc. reflexivity.
Qed.

Lemma flip_grid_length (j : nat) (g : list Tile) :
  length (flip_grid targetWord j g) = length g.
Proof.
  revert j. induction g as [|t g IH]; intros j; simpl; [reflexivity|].
  destruct (state_active t); simpl; rewrite IH; reflexivity.
Qed.

Lemma set_state_not_active (i : nat) (t : Tile) :
  state_active (set_state (flip_state targetWord i (data_letter t)) t) = false.
Proof. unfold state_active. simpl. apply flip_state_not_active. Qed.

Lemma flip_grid_active (j : nat) (g : list Tile) :
  length (querySelectorAll state_active (flip_grid targetWord j g)) = 0.
Proof.
  revert j. induction g as [|t g IH]; intros j; simpl; [reflexivity|].
  destruct (state_active t) eqn:Ht; rewrite querySelectorAll_cons, IH.
  - rewrite set_state_not_active. reflexivity.
  - rewrite Ht. reflexivity.
Qed.

Lemma flip_grid_not_data_letter (j : nat) (g : list Tile) :
  length (querySelectorAll not_data_letter (flip_grid targetWord j g)) =
  length (querySelectorAll not_data_letter g).
Proof.
  revert j. induction g as [|t g IH]; intros j; simpl; [reflexivity|].
  destruct (state_active t); rewrite !querySelectorAll_cons, IH; reflexivity.
Qed.

End Flips.

(** ** The three ways [submitGuess] ends *)

Section Submit.

Variable dictionary : list string.
Variable targetWord : string.

Lemma submitGuess_incomplete (p : Page) :
  length (getActiveTiles p) ≠ WORD_LENGTH →
  submitGuess dictionary targetWord p =
  showAlert "Not enough letters" (Some 1000) p.
Proof.
  intros H. unfold submitGuess.
  apply Nat.eqb_neq in H. rewrite H. reflexivity.
Qed.

Lemma submitGuess_invalid (p : Page) :
  length (getActiveTiles p) = WORD_LENGTH →
  in_dictionary dictionary (current_guess p) = false →
  submitGuess dictionary targetWord p =
  showAlert "Not in word list" (Some 1000) p.
Proof.
  intros H Hd. unfold submitGuess.
  apply Nat.eqb_eq in H. rewrite H. simpl.
  unfold in_dictionary, current_guess in Hd. rewrite Hd. reflexivity.
Qed.

Lemma submitGuess_valid (p : Page) :
  length (getActiveTiles p) = WORD_LENGTH →
  in_dictionary dictionary (current_guess p) = true →
  submitGuess dictionary targetWord p =
  foldl (λ q f, transitionend targetWord f q) (stopInteraction p)
        (imap (λ index tile,
                 flipTile tile index (getActiveTiles p) (current_guess p)
                          (stopInteraction p))
              (getActiveTiles p)).
Proof.
  intros H Hd. unfold submitGuess.
  apply Nat.eqb_eq in H. rewrite H. simpl.
  unfold in_dictionary, current_guess in Hd. rewrite Hd. reflexivity.
Qed.

Lemma submitGuess_valid_guessGrid (p : Page) :
  length (getActiveTiles p) = WORD_LENGTH →
  in_dictionary dictionary (current_guess p) = true →
  guessGrid (submitGuess dictionary targetWord p) =
  flip_grid targetWord 0 (guessGrid p).
Proof.
  intros H Hd. rewrite submitGuess_valid by assumption.
  rewrite foldl_transitionend_guessGrid.
  apply (flips_flip_grid targetWord (guessGrid p) [] 0). reflexivity.
Qed.

(** Callbacks other than the last one of the row leave the alerts and the
    listeners alone. *)
Lemma transitionend_inner (f : Flip) (p : Page) :
  f_index f + 1 ≠ f_length f →
  alertContainer (transitionend targetWord f p) = alertContainer p ∧
  listening (transitionend targetWord f p) = listening p.
Proof.
  intros H. unfold transitionend. destruct (f_key f); [|split; reflexivity].
  apply Nat.eqb_neq in H. rewrite H. split; reflexivity.
Qed.

Lemma foldl_transitionend_inner (fl : list Flip) (p : Page) :
  Forall (λ f, f_index f + 1 ≠ f_length f) fl →
  alertContainer (foldl (λ q f, transitionend targetWord f q) p fl) =
    alertContainer p ∧
  listening (foldl (λ q f, transitionend targetWord f q) p fl) = listening p.
Proof.
  revert p. induction fl as [|f fl IH]; intros p Hfl; [split; reflexivity|].
  inversion Hfl as [|? ? Hf Hrest]; subst. simpl.
  destruct (IH (transitionend targetWord f p) Hrest) as [-> ->].
  apply transitionend_inner, Hf.
Qed.

Lemma transitionend_last (f : Flip) (p : Page) (key : nat) :
  f_key f = Some key → f_index f + 1 = f_length f →
  ∃ q, guessGrid q = guessGrid (transitionend targetWord f p) ∧
       alertContainer q = alertContainer p ∧
       transitionend targetWord f p =
       checkWinLose targetWord (f_guess f) (startInteraction q).
Proof.
  intros Hk Hi. unfold transitionend. rewrite Hk.
  apply Nat.eqb_eq in Hi. rewrite Hi.
  eexists (set_keyboard _ (set_grid _ p)).
  split; [|split; [|reflexivity]].
  - rewrite checkWinLose_guessGrid. reflexivity.
  - reflexivity.
Qed.

Lemma transitionend_no_key (f : Flip) (p : Page) :
  f_key f = None →
  alertContainer (transitionend targetWord f p) = alertContainer p ∧
  listening (transitionend targetWord f p) = listening p.
Proof. intros Hk. unfold transitionend. rewrite Hk. split; reflexivity. Qed.

(** A valid submission ends with the callbacks of the last tile. *)
Lemma submitGuess_valid_last (p : Page) :
  length (getActiveTiles p) = WORD_LENGTH →
  in_dictionary dictionary (current_guess p) = true →
  match last_key p with
  | None =>
      alertContainer (submitGuess dictionary targetWord p) = alertContainer p ∧
      listening (submitGuess dictionary targetWord p) = false
  | Some _ =>
      ∃ q, guessGrid q = guessGrid (submitGuess dictionary targetWord p) ∧
           alertContainer q = alertContainer p ∧
           submitGuess dictionary targetWord p =
           checkWinLose targetWord (current_guess p) (startInteraction q)
  end.
Proof.
  intros H Hd. rewrite submitGuess_valid by assumption.
  unfold last_key.
  destruct (getActiveTiles p) as [|t0 ts _] eqn:Hids using rev_ind;
    [discriminate|].
  rewrite last_snoc. simpl.
  rewrite imap_app, foldl_app. simpl.
  set (fl := imap _ ts).
  set (q0 := foldl _ (stopInteraction p) fl).
  destruct (foldl_transitionend_inner fl (stopInteraction p)) as [Ha Hl].
  { subst fl. apply Forall_forall. intros f Hf.
    apply elem_of_lookup_imap in Hf as (i & tile & -> & Hi).
    apply lookup_lt_Some in Hi. simpl. rewrite length_app. simpl. lia. }
  fold q0 in Ha, Hl. simpl in Ha, Hl.
  set (f := flipTile t0 _ _ _ _).
  assert (Hkey : f_key f =
            querySelector
              (key_matches (JS.to_string ((guessGrid p !! t0) ≫= data_letter)))
              (keyboard p)) by reflexivity.
  destruct (querySelector _ (keyboard p)) as [key|].
  - destruct (transitionend_last f q0 key Hkey) as (q & Hg & Hq & ->).
    { subst f. simpl. rewrite length_app. simpl. lia. }
    exists q. rewrite checkWinLose_guessGrid.
    split; [reflexivity|]. split; [congruence|reflexivity].
  - destruct (transitionend_no_key f q0 Hkey) as [-> ->]. auto.
Qed.

(** What a valid submission leaves in the alerts and the listeners. *)
Lemma submitGuess_valid_cases (p : Page) :
  length (getActiveTiles p) = WORD_LENGTH →
  in_dictionary dictionary (current_guess p) = true →
  let p' := submitGuess dictionary targetWord p in
  match last_key p with
  | None => alertContainer p' = alertContainer p ∧ listening p' = false
  | Some _ =>
      if String.eqb (current_guess p) targetWord then
        alertContainer p' = mkAlert "You Win" (Some 5000) :: alertContainer p ∧
        listening p' = false
      else if length (querySelectorAll not_data_letter (guessGrid p')) =? 0
      then
        alertContainer p' =
          mkAlert (JS.toUpperCase targetWord) None :: alertContainer p ∧
        listening p' = false
      else alertContainer p' = alertContainer p ∧ listening p' = true
  end.
Proof.
  intros H Hd p'. pose proof (submitGuess_valid_last p H Hd) as Hlast.
  destruct (last_key p); [|exact Hlast].
  destruct Hlast as (q & Hg & Ha & Heq). fold p' in Hg, Heq.
  rewrite <- Hg. revert Heq. generalize p'. clear p' Hg. intros p' ->.
  unfold checkWinLose. destruct (String.eqb _ _).
  - simpl. rewrite Ha. auto.
  - cbn zeta. simpl guessGrid. destruct (_ =? 0); simpl; rewrite Ha; auto.
Qed.

End Submit.

(** ** The outcome shown by the page *)

Lemma outcome_alerts (p q : Page) :
  alertContainer p = alertContainer q → outcome p = outcome q.
Proof. unfold outcome. intros ->. reflexivity. Qed.

Lemma outcome_timed (msg : string) (p : Page) :
  outcome (showAlert msg (Some 1000) p) = outcome p.
Proof.
  unfold outcome, showAlert.
  cbn [alertContainer existsb loss_alert message duration].
  unfold win_alert at 1. cbn [message duration].
  change (1000 =? 5000) with false. rewrite andb_false_r. reflexivity.
Qed.

Lemma outcome_win (p : Page) :
  outcome (stopInteraction (showAlert "You Win" (Some 5000) p)) = won.
Proof. reflexivity. Qed.

Lemma outcome_loss (msg : string) (p : Page) :
  outcome p = in_progress →
  outcome (stopInteraction (showAlert msg None p)) = lost.
Proof.
  unfold outcome, stopInteraction, showAlert.
  cbn [alertContainer existsb loss_alert message duration].
  destruct (existsb win_alert (alertContainer p)); [discriminate|].
  intros _. unfold win_alert. cbn [message duration].
  rewrite andb_false_r. reflexivity.
Qed.

(** While the listeners are attached the game is undecided. *)
Lemma board_inv_in_progress (rows : nat) (p : Page) :
  board_inv rows p → listening p = true → outcome p = in_progress.
Proof.
  intros Hinv Hl. destruct (outcome p) eqn:E; [reflexivity| |];
    (assert (listening p = false)
       by (apply (inv_decided rows p Hinv); rewrite E; discriminate));
    congruence.
Qed.

(** ** The shape of the board is kept by every handler *)

Section Invariant.

Variable dictionary : list string.
Variable targetWord : string.
Variable rows : nat.

Lemma board_inv_initial (keys : list Key) :
  board_inv rows (initial rows keys).
Proof.
  assert (Hblank : ∀ n, length (querySelectorAll not_data_letter
                                  (replicate n empty_tile)) = n).
  { induction n as [|n IH]; [reflexivity|].
    simpl replicate. rewrite querySelectorAll_cons, IH. reflexivity. }
  assert (Hact : ∀ n, length (querySelectorAll state_active
                                (replicate n empty_tile)) = 0).
  { induction n as [|n IH]; [reflexivity|].
    simpl replicate. rewrite querySelectorAll_cons, IH. reflexivity. }
  split; unfold getActiveTiles, initial; simpl guessGrid.
  - apply Forall_replicate. discriminate.
  - rewrite Hact. lia.
  - exists 0. rewrite Hblank, Hact. lia.
  - intros Hr _. rewrite Hblank, Hact. unfold WORD_LENGTH. lia.
  - intros H. exfalso. apply H. reflexivity.
Qed.

Lemma board_inv_pressKey (key : string) (p : Page) :
  board_inv rows p → board_inv rows (pressKey key p).
Proof.
  intros [Hlet Hact [k Hrows] Hopen Hdec]. unfold pressKey.
  destruct (WORD_LENGTH <=? length (getActiveTiles p)) eqn:Hfull;
    [by split; eauto|].
  apply Nat.leb_gt in Hfull.
  destruct (querySelector not_data_letter (guessGrid p)) as [i|] eqn:Hq;
    [|by split; eauto].
  apply querySelector_Some in Hq as (x & Hx & Hblank).
  set (y := mkTile _ _ _).
  assert (Hxa : state_active x = false).
  { rewrite Forall_forall in Hlet.
    destruct (state_active x) eqn:E; [|reflexivity].
    rewrite Hlet in Hblank; [discriminate| |exact E].
    apply list_elem_of_lookup. eauto. }
  pose proof (querySelectorAll_insert state_active i x y _ Hx) as HA.
  pose proof (querySelectorAll_insert not_data_letter i x y _ Hx) as HE.
  rewrite Hxa, Hblank in *. simpl in HA, HE.
  unfold getActiveTiles in *.
  split; unfold getActiveTiles; simpl.
  - apply Forall_insert; [exact Hlet|]. reflexivity.
  - lia.
  - exists k. lia.
  - intros Hr Hl. specialize (Hopen Hr Hl). lia.
  - exact Hdec.
Qed.

Lemma board_inv_deleteKey (p : Page) :
  board_inv rows p → board_inv rows (deleteKey p).
Proof.
  intros [Hlet Hact [k Hrows] Hopen Hdec]. unfold deleteKey.
  destruct (last (getActiveTiles p)) as [i|] eqn:Hq; [|by split; eauto].
  apply last_querySelectorAll in Hq as (x & Hx & Hxa).
  assert (Hblank : not_data_letter x = false).
  { rewrite Forall_forall in Hlet. apply Hlet; [|exact Hxa].
    apply list_elem_of_lookup. eauto. }
  pose proof (querySelectorAll_insert state_active i x empty_tile _ Hx) as HA.
  pose proof (querySelectorAll_insert not_data_letter i x empty_tile _ Hx)
    as HE.
  rewrite Hxa, Hblank in *. simpl in HA, HE.
  unfold getActiveTiles in *.
  split; unfold getActiveTiles; simpl.
  - apply Forall_insert; [exact Hlet|]. discriminate.
  - lia.
  - exists k. lia.
  - intros Hr Hl. specialize (Hopen Hr Hl). lia.
  - exact Hdec.
Qed.

Lemma board_inv_showAlert (msg : string) (p : Page) :
  board_inv rows p → board_inv rows (showAlert msg (Some 1000) p).
Proof.
  intros [Hlet Hact Hrows Hopen Hdec].
  split; try assumption.
  rewrite outcome_timed. exact Hdec.
Qed.

Lemma flip_grid_lettered (j : nat) (g : list Tile) :
  Forall (λ t, state_active t = true → not_data_letter t = false) g →
  Forall (λ t, state_active t = true → not_data_letter t = false)
         (flip_grid targetWord j g).
Proof.
  intros H. revert j.
  induction H as [|t g Ht Hg IH]; intros j; cbn [flip_grid]; [constructor|].
  destruct (state_active t) eqn:E; constructor; auto; intros Hs;
    first [rewrite set_state_not_active in Hs; discriminate | congruence].
Qed.

Lemma board_inv_submitGuess (p : Page) :
  board_inv rows p → listening p = true →
  board_inv rows (submitGuess dictionary targetWord p).
Proof.
  intros Hinv Hl.
  destruct (decide (length (getActiveTiles p) = WORD_LENGTH)) as [Hfull|Hne].
  2:{ rewrite submitGuess_incomplete by assumption.
      by apply board_inv_showAlert. }
  destruct (in_dictionary dictionary (current_guess p)) eqn:Hd.
  2:{ rewrite submitGuess_invalid by assumption.
      by apply board_inv_showAlert. }
  pose proof (submitGuess_valid_guessGrid dictionary targetWord p Hfull Hd)
    as Hgrid.
  pose proof (submitGuess_valid_cases dictionary targetWord p Hfull Hd)
    as Hlast.
  pose proof (board_inv_in_progress rows p Hinv Hl) as Hprog.
  destruct Hinv as [Hlet Hact [k Hrows] Hopen Hdec].
  cbn zeta in Hlast.
  set (p' := submitGuess dictionary targetWord p) in *.
  assert (HA : length (getActiveTiles p') = 0).
  { unfold getActiveTiles. rewrite Hgrid. apply flip_grid_active. }
  assert (HE : length (querySelectorAll not_data_letter (guessGrid p')) =
               length (querySelectorAll not_data_letter (guessGrid p))).
  { rewrite Hgrid. apply flip_grid_not_data_letter. }
  assert (Hrows' :
            length (querySelectorAll not_data_letter (guessGrid p')) +
            S k * WORD_LENGTH = rows * WORD_LENGTH).
  { rewrite HE. unfold WORD_LENGTH in *. lia. }
  assert (Hafter :
            (listening p' = true →
             length (querySelectorAll not_data_letter (guessGrid p')) ≠ 0) ∧
            (outcome p' ≠ in_progress → listening p' = false)).
  { destruct (last_key p); [|destruct Hlast as [_ ->]; split; congruence].
    destruct (String.eqb _ _);
      [destruct Hlast as [_ ->]; split; congruence|].
    destruct (_ =? 0) eqn:E0;
      [destruct Hlast as [_ ->]; split; congruence|].
    apply Nat.eqb_neq in E0. destruct Hlast as [Ha _]. split; [auto|].
    intros Hout. exfalso. apply Hout.
    rewrite <- Hprog. apply outcome_alerts. exact Ha. }
  destruct Hafter as [Hopen' Hdec'].
  split.
  - rewrite Hgrid. by apply flip_grid_lettered.
  - lia.
  - exists (S k). lia.
  - intros _ Hl'. specialize (Hopen' Hl'). unfold WORD_LENGTH in *. lia.
  - exact Hdec'.
Qed.

Lemma board_inv_dispatch (e : Event) (p : Page) :
  board_inv rows p → board_inv rows (dispatch dictionary targetWord e p).
Proof.
  intros Hinv. unfold dispatch.
  destruct (listening p) eqn:Hl; [|exact Hinv].
  destruct e as [target|key].
  - unfold handleMouseClick. destruct (t_key target).
    + by apply board_inv_pressKey.
    + destruct (t_enter target); [by apply board_inv_submitGuess|].
      destruct (t_delete target); [by apply board_inv_deleteKey|exact Hinv].
  - unfold handleKeyPress.
    destruct (String.eqb key "Enter"); [by apply board_inv_submitGuess|].
    destruct (_ || _); [by apply board_inv_deleteKey|].
    destruct (JS.is_lower_letter key); [by apply board_inv_pressKey|].
    exact Hinv.
Qed.

Lemma reachable_board_inv (keys : list Key) (p : Page) :
  reachable dictionary targetWord rows keys p → board_inv rows p.
Proof.
  intros H. induction H as [|e p _ IH].
  - apply board_inv_initial.
  - by apply board_inv_dispatch.
Qed.

End Invariant.

(** ** The classes of the keys only grow *)

Lemma key_le_refl (k : Key) : key_le k k.
Proof. split; auto. Qed.

Lemma key_le_trans (k1 k2 k3 : Key) : key_le k1 k2 → key_le k2 k3 → key_le k1 k3.
Proof. intros [H1 H2] [H3 H4]. split; [congruence | auto]. Qed.

Lemma keyboard_le_refl (kb : list Key) : keyboard_le kb kb.
Proof. induction kb; constructor; auto using key_le_refl. Qed.

Lemma keyboard_le_trans (kb1 kb2 kb3 : list Key) :
  keyboard_le kb1 kb2 → keyboard_le kb2 kb3 → keyboard_le kb1 kb3.
Proof.
  unfold keyboard_le. intros H. revert kb3.
  induction H as [|k1 k2 kb1 kb2 Hk _ IH]; intros kb3 H23;
    inversion H23; subst; constructor.
  - eapply key_le_trans; eassumption.
  - apply IH. assumption.
Qed.

Lemma has_class_In (c : string) (k : Key) :
  has_class c k = true ↔ In c (classList k).
Proof.
  unfold has_class. rewrite existsb_exists. split.
  - intros (d & Hd & E). apply String.eqb_eq in E. congruence.
  - intros H. exists c. split; [exact H | apply String.eqb_refl].
Qed.

Lemma key_le_add (c : string) (k : Key) : key_le k (classList_add c k).
Proof.
  unfold classList_add.
  destruct (existsb _ _); [apply key_le_refl|].
  split; [reflexivity|]. simpl. intros d Hd. apply in_or_app. auto.
Qed.

Lemma keyboard_le_alter (c : string) (i : nat) (kb : list Key) :
  keyboard_le kb (alter (classList_add c) i kb).
Proof.
  revert i. induction kb as [|k kb IH]; intros [|i]; simpl; constructor.
  - apply key_le_add.
  - apply keyboard_le_refl.
  - apply key_le_refl.
  - apply IH.
Qed.

Section Keyboard.

Variable dictionary : list string.
Variable targetWord : string.

Lemma keyboard_le_foldl (fl : list Flip) (p : Page) :
  keyboard_le (keyboard p)
    (keyboard (foldl (λ q f, transitionend targetWord f q) p fl)).
Proof.
  revert p. induction fl as [|f fl IH]; intros p; simpl;
    [apply keyboard_le_refl|].
  eapply keyboard_le_trans; [|apply IH].
  rewrite transitionend_keyboard.
  destruct (f_key f); [apply keyboard_le_alter | apply keyboard_le_refl].
Qed.

Lemma keyboard_le_submitGuess (p : Page) :
  keyboard_le (keyboard p) (keyboard (submitGuess dictionary targetWord p)).
Proof.
  unfold submitGuess. destruct (negb _); [apply keyboard_le_refl|].
  cbn zeta. destruct (negb _); [apply keyboard_le_refl|].
  apply (keyboard_le_foldl _ (stopInteraction p)).
Qed.

Lemma pressKey_keyboard (key : string) (p : Page) :
  keyboard (pressKey key p) = keyboard p.
Proof.
  unfold pressKey. destruct (_ <=? _); [reflexivity|].
  destruct (querySelector _ _); reflexivity.
Qed.

Lemma deleteKey_keyboard (p : Page) : keyboard (deleteKey p) = keyboard p.
Proof. unfold deleteKey. destruct (last _); reflexivity. Qed.

Lemma keyboard_le_dispatch (e : Event) (p : Page) :
  keyboard_le (keyboard p) (keyboard (dispatch dictionary targetWord e p)).
Proof.
  unfold dispatch. destruct (listening p); [|apply keyboard_le_refl].
  destruct e as [target|key].
  - unfold handleMouseClick. destruct (t_key target).
    + rewrite pressKey_keyboard. apply keyboard_le_refl.
    + destruct (t_enter target); [apply keyboard_le_submitGuess|].
      destruct (t_delete target); [|apply keyboard_le_refl].
      rewrite deleteKey_keyboard. apply keyboard_le_refl.
  - unfold handleKeyPress.
    destruct (String.eqb key "Enter"); [apply keyboard_le_submitGuess|].
    destruct (_ || _);
      [rewrite deleteKey_keyboard; apply keyboard_le_refl|].
    destruct (JS.is_lower_letter key); [|apply keyboard_le_refl].
    rewrite pressKey_keyboard. apply keyboard_le_refl.
Qed.

Lemma keyboard_le_run (es : list Event) (p : Page) :
  keyboard_le (keyboard p) (keyboard (run dictionary targetWord es p)).
Proof.
  revert p. induction es as [|e es IH]; intros p; simpl;
    [apply keyboard_le_refl|].
  eapply keyboard_le_trans; [apply keyboard_le_dispatch | apply IH].
Qed.

End Keyboard.

(** The key found for a letter is the same key, with at least the classes
    it had. *)
Lemma matching_from_keyboard_le (letter : string) (i : nat) (kb kb' : list Key) :
  keyboard_le kb kb' →
  matching_from (key_matches letter) i kb' =
  matching_from (key_matches letter) i kb.
Proof.
  intros H. revert i. induction H as [|k k' kb kb' [Hk _] _ IH]; intros i;
    cbn [matching_from]; [reflexivity|].
  assert (Hm : key_matches letter k' = key_matches letter k)
    by (unfold key_matches; rewrite Hk; reflexivity).
  rewrite Hm, !IH. reflexivity.
Qed.

Lemma key_of_keyboard_le (letter : string) (p p' : Page) :
  keyboard_le (keyboard p) (keyboard p') →
  match key_of letter p with
  | Some k => ∃ k', key_of letter p' = Some k' ∧ key_le k k'
  | None => key_of letter p' = None
  end.
Proof.
  intros H. unfold key_of, querySelector, querySelectorAll.
  rewrite (matching_from_keyboard_le letter 0 _ _ H).
  destruct (head _) as [i|]; simpl; [|reflexivity].
  destruct (keyboard p !! i) as [k|] eqn:Hk.
  - destruct (Forall2_lookup_l _ _ _ _ _ H Hk) as (k' & Hk' & Hle).
    exists k'. auto.
  - apply lookup_ge_None in Hk. apply lookup_ge_None.
    rewrite <- (Forall2_length _ _ _ H). exact Hk.
Qed.

Lemma best_status_mono (k k' : Key) :
  key_le k k' → rank (best_status k) ≤ rank (best_status k').
Proof.
  intros [_ H]. unfold best_status.
  assert (H' : ∀ c, has_class c k = true → has_class c k' = true)
    by (intros c; rewrite !has_class_In; apply H).
  pose proof (H' "correct") as H1.
  pose proof (H' "wrong-location") as H2.
  pose proof (H' "wrong") as H3.
  destruct (has_class "correct" k), (has_class "correct" k'),
    (has_class "wrong-location" k), (has_class "wrong-location" k'),
    (has_class "wrong" k), (has_class "wrong" k');
    simpl; try lia;
    first [discriminate (H1 eq_refl) | discriminate (H2 eq_refl)
          | discriminate (H3 eq_refl)].
Qed.

(** ** Runs *)

Lemma run_app (d : list string) (tw : string) (es1 es2 : list Event) (p : Page) :
  run d tw (es1 ++ es2) p = run d tw es2 (run d tw es1 p).
Proof. apply foldl_app. Qed.

Lemma reachable_run (d : list string) (tw : string) (rows : nat)
    (keys : list Key) (es : list Event) (p : Page) :
  reachable d tw rows keys p → reachable d tw rows keys (run d tw es p).
Proof.
  revert p. induction es as [|e es IH]; intros p H; simpl; [exact H|].
  apply IH. constructor. exact H.
Defined.

Lemma in_dictionary_In (d : list string) (w : string) :
  In w d → in_dictionary d w = true.
Proof.
  intros H. apply existsb_exists. exists w. split; [exact H|].
  apply String.eqb_refl.
Qed.

(** Pressing Enter on a full row that holds a word of the list: the
    callbacks of the row run. *)
Lemma dispatch_enter_valid (d : list string) (tw : string) (p : Page) :
  listening p = true →
  length (getActiveTiles p) = WORD_LENGTH →
  In (current_guess p) d →
  dispatch d tw (keydown "Enter") p =
  foldl (λ q f, transitionend tw f q) (stopInteraction p)
        (imap (λ index tile,
                 flipTile tile index (getActiveTiles p) (current_guess p)
                          (stopInteraction p))
              (getActiveTiles p)).
Proof.
  intros Hl Hfull Hin. unfold dispatch. rewrite Hl.
  unfold handleKeyPress. rewrite String.eqb_refl.
  apply submitGuess_valid; [exact Hfull|].
  apply in_dictionary_In, Hin.
Qed.

(** ** A submitted row gets the states of [evaluate] *)

Lemma flip_grid_lookup (tw : string) (g : list Tile) (j off n tile : nat) :
  matching_from state_active off g !! n = Some tile →
  ∃ t, g !! (tile - off) = Some t ∧
       flip_grid tw j g !! (tile - off) =
       Some (set_state (flip_state tw (j + n) (data_letter t)) t).
Proof.
  revert j off n. induction g as [|t g IH]; intros j off n H; [discriminate|].
  cbn [matching_from flip_grid] in *.
  assert (Hrest : ∀ j' n' h,
            matching_from state_active (S off) g !! n' = Some tile →
            ∃ t', (t :: g) !! (tile - off) = Some t' ∧
                  (h :: flip_grid tw j' g) !! (tile - off) =
                  Some (set_state (flip_state tw (j' + n') (data_letter t')) t')).
  { intros j' n' h Hn'.
    assert (Hge : S off ≤ tile).
    { assert (Hin : tile ∈ matching_from state_active (S off) g)
        by (apply list_elem_of_lookup; eauto).
      apply matching_from_elem in Hin as (? & ? & _). assumption. }
    destruct (IH j' (S off) n' Hn') as (t' & Ht' & Hf).
    exists t'. replace (tile - off) with (S (tile - S off)) by lia. auto. }
  destruct (state_active t) eqn:Ht.
  - destruct n as [|n]; simpl in H.
    + injection H as <-. exists t. rewrite Nat.sub_diag, Nat.add_0_r. auto.
    + replace (j + S n) with (S j + n) by lia. apply Hrest, H.
  - apply Hrest, H.
Qed.

Lemma append_empty_r (w : string) : (w ++ "")%string = w.
Proof.
  induction w as [|a w IH]; [reflexivity|].
  change (String a (w ++ "")%string = String a w). rewrite IH. reflexivity.
Qed.

Lemma append_letter (w : string) (c : ascii) (v : string) :
  ((w ++ letter_string c) ++ v)%string = (w ++ String c v)%string.
Proof.
  induction w as [|a w IH]; [reflexivity|].
  change (String a ((w ++ letter_string c) ++ v)%string =
          String a (w ++ String c v)%string).
  rewrite IH. reflexivity.
Qed.

Lemma current_guess_letters (g : nat → option string) (ids : list nat)
    (cs : list ascii) (acc : string) :
  map g ids = map (λ c, Some (letter_string c)) cs →
  foldl (λ word tile, (word ++ JS.to_string (g tile))%string) acc ids =
  (acc ++ string_of_list_ascii cs)%string.
Proof.
  revert cs acc. induction ids as [|i ids IH]; intros [|c cs] acc H;
    try discriminate.
  - simpl. symmetry. apply append_empty_r.
  - simpl in H. injection H as Hi Hrest. cbn [foldl string_of_list_ascii].
    rewrite (IH cs _ Hrest), Hi. cbn [JS.to_string].
    apply append_letter.
Qed.

Lemma row_holds_guess (G : string) (p : Page) :
  row_holds G p → current_guess p = G.
Proof.
  intros H. unfold current_guess.
  rewrite (current_guess_letters _ _ (letters G) "" H). simpl.
  apply string_of_list_ascii_of_string.
Qed.

Lemma row_holds_length (G : string) (p : Page) :
  row_holds G p → length (getActiveTiles p) = String.length G.
Proof.
  intros H. apply (f_equal length) in H.
  rewrite !length_map, letters_length in H. exact H.
Qed.

(** After a valid submission the tiles of the row carry, in order, the
    states [evaluate targetWord guess]. *)
Lemma submitGuess_evaluate (d : list string) (tw G : string) (p : Page) :
  row_holds G p →
  String.length G = WORD_LENGTH →
  In G d →
  states_at (getActiveTiles p) (submitGuess d tw p) = map Some (evaluate tw G).
Proof.
  intros Hrow Hlen Hin.
  pose proof (row_holds_guess G p Hrow) as Hguess.
  pose proof (row_holds_length G p Hrow) as Hids.
  unfold states_at.
  rewrite submitGuess_valid_guessGrid
    by (rewrite ?Hguess; auto using in_dictionary_In; congruence).
  apply list_eq. intros n.
  rewrite !list_lookup_fmap, evaluate_lookup, <- letters_lookup.
  destruct (getActiveTiles p !! n) as [tile|] eqn:Hn.
  - assert (Hl := f_equal (λ l, l !! n) Hrow). simpl in Hl.
    rewrite !list_lookup_fmap, Hn in Hl. simpl in Hl.
    destruct (letters G !! n) as [c|]; [|discriminate]. simpl in *.
    destruct (flip_grid_lookup tw (guessGrid p) 0 0 n tile Hn)
      as (t & Ht & Hf).
    rewrite Nat.sub_0_r in Ht, Hf. rewrite Hf. rewrite Ht in Hl.
    simpl in Hl. injection Hl as Hl. simpl. rewrite Hl. reflexivity.
  - simpl. apply lookup_ge_None in Hn.
    rewrite Hids, <- letters_length in Hn.
    apply lookup_ge_None in Hn. rewrite Hn. reflexivity.
Qed.

(** ** The evaluation of a guess *)

Lemma get_is_Some (w : string) (i : nat) :
  i < String.length w → ∃ c, String.get i w = Some c.
Proof.
  rewrite <- letters_length, <- letters_lookup. intros H.
  apply lookup_lt_is_Some_2 in H as [c Hc]. eauto.
Qed.

Lemma evaluate_correct_lookup (S G : string) (i : nat) :
  i < String.length G →
  evaluate S G !! i = Some "correct" ↔ String.get i G = String.get i S.
Proof.
  intros Hi. destruct (get_is_Some G i Hi) as [c Hc].
  rewrite evaluate_lookup, Hc. simpl.
  destruct (flip_state_cases S i (Some (letter_string c)))
    as [[-> H]|[[-> [H _]]|[-> [H _]]]].
  - apply strict_eq_at_index in H. split; congruence.
  - split; [discriminate|]. intros E. symmetry in E.
    apply strict_eq_at_index in E. congruence.
  - split; [discriminate|]. intros E. symmetry in E.
    apply strict_eq_at_index in E. congruence.
Qed.

(** The state of the [i]-th tile of the row after the submission. *)
Lemma submitted_state_lookup (d : list string) (S G : string) (p : Page)
    (i : nat) (s : string) :
  row_holds G p → String.length G = WORD_LENGTH → In G d →
  states_at (getActiveTiles p) (submitGuess d S p) !! i = Some (Some s) ↔
  evaluate S G !! i = Some s.
Proof.
  intros Hrow Hlen Hin.
  rewrite (submitGuess_evaluate d S G p Hrow Hlen Hin), list_lookup_fmap.
  destruct (evaluate S G !! i); simpl; split; congruence.
Qed.

(** C3. A row that holds the guess [G], a word of the list of length
    [WORD_LENGTH], is submitted on a page whose word of the day [S] has the
    same length.  Then the tile at position [i] of the row carries the state
    [correct] on the page after [submitGuess] exactly when [G[i]] equals
    [S[i]]. *)
Theorem evaluate_correct_iff (d : list string) (S G : string) (p : Page)
    (i : nat) :
  row_holds G p →
  String.length G = WORD_LENGTH →
  In G d →
  String.length S = String.length G →
  i < String.length G →
  states_at (getActiveTiles p) (submitGuess d S p) !! i = Some (Some "correct")
  ↔ String.get i G = String.get i S.
Proof.
  intros Hrow Hlen Hin _ Hi.
  rewrite (submitted_state_lookup d S G p i "correct" Hrow Hlen Hin).
  by apply evaluate_correct_lookup.
Qed.

Lemma evaluate_correct_iff_witness :
  let d := ["trace"] in
  let p := run d "crane" (letter_keys "trace") (initial 6 qwerty) in
  states_at (getActiveTiles p) (submitGuess d "crane" p) !! 1
    = Some (Some "correct")
  ↔ String.get 1 "trace" = String.get 1 "crane".
Proof.
  apply (evaluate_correct_iff ["trace"] "crane" "trace"
           (run ["trace"] "crane" (letter_keys "trace") (initial 6 qwerty)) 1).
  - reflexivity.
  - reflexivity.
  - simpl. tauto.
  - reflexivity.
  - simpl. lia.
Defined.

Lemma marks_filter (c : ascii) (S : string) (l : list ascii)
    (f : nat → ascii → string) :
  (∀ i g, marked (f i g) = JS.includes S (letter_string g)) →
  length (List.filter (λ gs, Ascii.eqb (fst gs) c && marked (snd gs))
                      (combine l (imap f l))) =
  if JS.includes S (letter_string c) then count_occ ascii_dec l c else 0.
Proof.
  revert f. induction l as [|g l IH]; intros f Hf.
  - simpl. destruct (JS.includes _ _); reflexivity.
  - cbn [imap combine List.filter fst snd].
    rewrite Hf. specialize (IH (f ∘ Datatypes.S)).
    destruct (ascii_dec g c) as [->|Hne].
    + rewrite Ascii.eqb_refl. cbn [andb]. rewrite count_occ_cons_eq by reflexivity.
      destruct (JS.includes S (letter_string c)); cbn [length];
        rewrite IH by (intros; apply Hf); reflexivity.
    + rewrite count_occ_cons_neq by exact Hne.
      apply Ascii.eqb_neq in Hne. rewrite Hne. cbn [andb].
      apply IH. intros; apply Hf.
Qed.

Lemma marks_includes (c : ascii) (S G : string) :
  marks c S G =
  if JS.includes S (letter_string c) then occurrences c G else 0.
Proof.
  unfold marks, evaluate, occurrences. apply marks_filter.
  intros i g. apply marked_flip_state.
Qed.

Lemma marks_count (S G : string) (c : ascii) :
  marks c S G = (if 0 <? occurrences c S then occurrences c G else 0) ∧
  marks c S G ≤ occurrences c G.
Proof.
  rewrite marks_includes.
  pose proof (includes_occurrences S c) as H.
  destruct (JS.includes S (letter_string c)).
  - assert (H0 : 0 < occurrences c S) by (apply H; reflexivity).
    apply Nat.ltb_lt in H0. rewrite H0. split; reflexivity.
  - destruct (0 <? occurrences c S) eqn:E.
    + apply Nat.ltb_lt, H in E. discriminate.
    + split; [reflexivity | lia].
Qed.

(** Counting over the tiles of the row and counting over the letters of the
    guess with their states agree when they agree position by position. *)
Lemma filter_length_pointwise {A B C} (P : A → bool) (Q : B * C → bool)
    (ids : list A) (gs : list B) (ss : list C) :
  length ids = length gs → length gs = length ss →
  (∀ n x, ids !! n = Some x →
          ∃ g s, gs !! n = Some g ∧ ss !! n = Some s ∧ P x = Q (g, s)) →
  length (List.filter P ids) = length (List.filter Q (combine gs ss)).
Proof.
  revert gs ss. induction ids as [|x ids IH]; intros [|g gs] [|s ss] H1 H2 H;
    try discriminate; [reflexivity|].
  cbn [List.filter combine].
  destruct (H 0 x eq_refl) as (g' & s' & [= <-] & [= <-] & ->).
  assert (Hrest : length (List.filter P ids) =
                  length (List.filter Q (combine gs ss))).
  { apply IH; [simpl in H1; lia | simpl in H2; lia |].
    intros n y Hn. apply (H (Datatypes.S n) y Hn). }
  destruct (Q (g, s)); simpl; rewrite Hrest; reflexivity.
Qed.

Lemma flip_grid_lookup_letter (tw : string) (g : list Tile) (j i : nat) :
  (flip_grid tw j g !! i) ≫= data_letter = (g !! i) ≫= data_letter.
Proof.
  revert j i. induction g as [|t g IH]; intros j [|i]; simpl; try reflexivity.
  - destruct (state_active t); reflexivity.
  - destruct (state_active t); simpl; apply IH.
Qed.

(** On the page after the submission the marked tiles of the row are
    counted as [marks] counts them. *)
Lemma marked_tiles_marks (d : list string) (S G : string) (c : ascii)
    (p : Page) :
  row_holds G p → String.length G = WORD_LENGTH → In G d →
  marked_tiles c (getActiveTiles p) (submitGuess d S p) = marks c S G.
Proof.
  intros Hrow Hlen Hin.
  pose proof (submitGuess_evaluate d S G p Hrow Hlen Hin) as Hst.
  pose proof (row_holds_guess G p Hrow) as Hguess.
  pose proof (row_holds_length G p Hrow) as Hids.
  assert (Hgrid : guessGrid (submitGuess d S p) = flip_grid S 0 (guessGrid p)).
  { apply submitGuess_valid_guessGrid; [congruence|].
    rewrite Hguess. by apply in_dictionary_In. }
  unfold marked_tiles, marks.
  apply filter_length_pointwise.
  - rewrite Hids. symmetry. apply letters_length.
  - rewrite evaluate_length. apply letters_length.
  - intros n tile Hn.
    assert (Hl := f_equal (λ l, l !! n) Hrow). simpl in Hl.
    rewrite !list_lookup_fmap, Hn in Hl. simpl in Hl.
    assert (Hs := f_equal (λ l, l !! n) Hst). simpl in Hs.
    unfold states_at in Hs. rewrite !list_lookup_fmap, Hn in Hs. simpl in Hs.
    destruct (letters G !! n) as [g|]; [|discriminate].
    destruct (evaluate S G !! n) as [s|]; [|discriminate].
    simpl in Hl, Hs. injection Hl as Hl. injection Hs as Hs.
    exists g, s. split; [reflexivity|]. split; [reflexivity|].
    rewrite <- (flip_grid_lookup_letter S _ 0), <- Hgrid in Hl.
    destruct (guessGrid (submitGuess d S p) !! tile) as [t|]; [|discriminate].
    simpl in Hl, Hs. unfold tile_marked. rewrite Hl, Hs.
    cbn [JS.strict_eq fst snd]. rewrite letter_string_eqb. reflexivity.
Qed.

(** C1, as the code has it.  A row that holds the guess [G], a word of the
    list of length [WORD_LENGTH], is submitted on a page whose word of the
    day [S] has the same length.  The state of a tile comes from
    [targetWord.includes(letter)], which does not use up the occurrences of
    the letter: on the page after [submitGuess] every tile of the row that
    holds [c] is marked ([correct] or [wrong-location]) when [c] occurs in
    [S], and none is when it does not.  So the number of marked tiles that
    hold [c] is the number of occurrences of [c] in the guess, or zero; it
    never exceeds the occurrences of [c] in [G]. *)
Theorem marks_occurrences (d : list string) (S G : string) (c : ascii)
    (p : Page) :
  row_holds G p →
  String.length G = WORD_LENGTH →
  In G d →
  String.length S = String.length G →
  let p' := submitGuess d S p in
  marked_tiles c (getActiveTiles p) p' =
    (if 0 <? occurrences c S then occurrences c G else 0) ∧
  marked_tiles c (getActiveTiles p) p' ≤ occurrences c G ∧
  marked_tiles c (getActiveTiles p) p' = marks c S G.
Proof.
  intros Hrow Hlen Hin _ p'. subst p'.
  rewrite (marked_tiles_marks d S G c p Hrow Hlen Hin).
  destruct (marks_count S G c) as [H1 H2]. auto.
Qed.

Lemma marks_occurrences_witness :
  let d := ["eerie"] in
  let p := run d "crane" (letter_keys "eerie") (initial 6 qwerty) in
  let p' := submitGuess d "crane" p in
  marked_tiles "e" (getActiveTiles p) p' =
    (if 0 <? occurrences "e" "crane" then occurrences "e" "eerie" else 0) ∧
  marked_tiles "e" (getActiveTiles p) p' ≤ occurrences "e" "eerie" ∧
  marked_tiles "e" (getActiveTiles p) p' = marks "e" "crane" "eerie".
Proof.
  apply (marks_occurrences ["eerie"] "crane" "eerie" "e"
           (run ["eerie"] "crane" (letter_keys "eerie") (initial 6 qwerty))).
  - reflexivity.
  - reflexivity.
  - simpl. tauto.
  - reflexivity.
Defined.

(** C1, as stated, fails on a repeated letter: against "crane" the guess
    "eerie" has three marked tiles that hold "e" (two [wrong-location], one
    [correct]), and "crane" has one "e".  The tiles of the page carry these
    states once the row is submitted. *)
Lemma marks_exceed_occurrences :
  String.length "crane" = String.length "eerie" ∧
  evaluate "crane" "eerie" =
    ["wrong-location"; "wrong-location"; "wrong-location"; "wrong"; "correct"] ∧
  states_at [0; 1; 2; 3; 4]
    (run ["eerie"] "crane" (typing "eerie") (initial 6 qwerty)) =
    map Some (evaluate "crane" "eerie") ∧
  marked_tiles "e" [0; 1; 2; 3; 4]
    (run ["eerie"] "crane" (typing "eerie") (initial 6 qwerty)) = 3 ∧
  marks "e" "crane" "eerie" = 3 ∧
  occurrences "e" "crane" = 1 ∧
  ¬ marked_tiles "e" [0; 1; 2; 3; 4]
      (run ["eerie"] "crane" (typing "eerie") (initial 6 qwerty))
    ≤ occurrences "e" "crane" ∧
  ¬ marks "e" "crane" "eerie" ≤ occurrences "e" "crane".
Proof.
  repeat split; try reflexivity.
  - change (marked_tiles _ _ _) with 3.
    change (occurrences "e" "crane") with 1. lia.
  - change (marks "e" "crane" "eerie") with 3.
    change (occurrences "e" "crane") with 1. lia.
Qed.

(** ** The win scenario *)

(** Typing a word of the list into an empty row of a listening page. *)
Lemma run_typing (d : list string) (tw w : string) (p : Page) :
  let q := run d tw (letter_keys w) p in
  listening q = true →
  length (getActiveTiles q) = WORD_LENGTH →
  current_guess q = w →
  In w d →
  run d tw (typing w) p =
  foldl (λ r f, transitionend tw f r) (stopInteraction q)
        (imap (λ index tile,
                 flipTile tile index (getActiveTiles q) (current_guess q)
                          (stopInteraction q))
              (getActiveTiles q)).
Proof.
  intros q Hl Hfull Hw Hin. unfold typing. rewrite run_app.
  fold (letter_keys w). fold q. cbn [run foldl].
  apply dispatch_enter_valid; [exact Hl | exact Hfull |].
  rewrite Hw. exact Hin.
Qed.

Lemma run_trace (d : list string) :
  In "trace" d →
  run d "crane" (typing "trace") (initial 6 qwerty) =
  run ["trace"] "crane" (typing "trace") (initial 6 qwerty).
Proof.
  intros Hin.
  rewrite (run_typing d) by (try exact Hin; vm_compute; reflexivity).
  rewrite (run_typing ["trace"]) by (try (by left); vm_compute; reflexivity).
  vm_compute. reflexivity.
Qed.

Lemma run_trace_crane (d : list string) :
  In "trace" d → In "crane" d →
  run d "crane" (typing "crane")
      (run d "crane" (typing "trace") (initial 6 qwerty)) =
  run ["trace"; "crane"] "crane" (typing "trace" ++ typing "crane")
      (initial 6 qwerty).
Proof.
  intros Ht Hc. rewrite (run_trace d Ht).
  rewrite (run_typing d) by (try exact Hc; vm_compute; reflexivity).
  vm_compute. reflexivity.
Qed.

(** C2, as the code has it.  Against "crane" the tiles of "trace" get
    [wrong, correct, correct, wrong-location, correct]: "t" is not in the
    word, "r", "a" and "e" stand where they do in "crane", and "c" is in
    the word at another place.  Typing "crane" next wins the game. *)
Theorem trace_then_crane (d : list string) :
  In "trace" d → In "crane" d →
  let p1 := run d "crane" (typing "trace") (initial 6 qwerty) in
  let p2 := run d "crane" (typing "crane") p1 in
  evaluate "crane" "trace" =
    ["wrong"; "correct"; "correct"; "wrong-location"; "correct"] ∧
  states_at [0; 1; 2; 3; 4] p1 = map Some (evaluate "crane" "trace") ∧
  outcome p1 = in_progress ∧
  states_at [5; 6; 7; 8; 9] p2 = map Some (evaluate "crane" "crane") ∧
  outcome p2 = won.
Proof.
  intros Ht Hc p1 p2. subst p2 p1.
  rewrite (run_trace_crane d Ht Hc), (run_trace d Ht).
  repeat split; vm_compute; reflexivity.
Qed.

Lemma trace_then_crane_witness :
  let d := ["crane"; "trace"] in
  let p1 := run d "crane" (typing "trace") (initial 6 qwerty) in
  let p2 := run d "crane" (typing "crane") p1 in
  evaluate "crane" "trace" =
    ["wrong"; "correct"; "correct"; "wrong-location"; "correct"] ∧
  states_at [0; 1; 2; 3; 4] p1 = map Some (evaluate "crane" "trace") ∧
  outcome p1 = in_progress ∧
  states_at [5; 6; 7; 8; 9] p2 = map Some (evaluate "crane" "crane") ∧
  outcome p2 = won.
Proof.
  apply (trace_then_crane ["crane"; "trace"]); simpl; tauto.
Defined.

(** C2, as stated, fails: the states of "trace" against "crane" are not
    [wrong-location, wrong, wrong-location, correct, wrong-location],
    neither by [flip_state] nor on the tiles of the page after the row is
    submitted. *)
Lemma trace_states_not_as_stated :
  evaluate "crane" "trace" ≠
    ["wrong-location"; "wrong"; "wrong-location"; "correct"; "wrong-location"] ∧
  states_at [0; 1; 2; 3; 4]
    (run ["trace"; "crane"] "crane" (typing "trace") (initial 6 qwerty)) ≠
    [Some "wrong-location"; Some "wrong"; Some "wrong-location";
     Some "correct"; Some "wrong-location"].
Proof. split; vm_compute; discriminate. Qed.

(** ** Rejected submissions *)

(** C5. With fewer than [WORD_LENGTH] active tiles, [submitGuess] shows
    "Not enough letters" and changes nothing else: the tiles keep their
    letters and states, the keys keep their classes, the listeners stay as
    they are and the game is as undecided as before. *)
Theorem submit_incomplete (d : list string) (tw : string) (p : Page) :
  length (getActiveTiles p) < WORD_LENGTH →
  let p' := submitGuess d tw p in
  alertContainer p' =
    mkAlert "Not enough letters" (Some 1000) :: alertContainer p ∧
  guessGrid p' = guessGrid p ∧
  keyboard p' = keyboard p ∧
  listening p' = listening p ∧
  outcome p' = outcome p.
Proof.
  intros H p'. subst p'. rewrite submitGuess_incomplete by lia.
  rewrite outcome_timed. repeat split.
Qed.

Lemma submit_incomplete_witness :
  let p := run ["crane"] "crane" (letter_keys "cra") (initial 6 qwerty) in
  let p' := submitGuess ["crane"] "crane" p in
  length (getActiveTiles p) = 3 ∧
  alertContainer p' =
    mkAlert "Not enough letters" (Some 1000) :: alertContainer p ∧
  guessGrid p' = guessGrid p ∧
  keyboard p' = keyboard p ∧
  listening p' = listening p ∧
  outcome p' = outcome p.
Proof.
  split; [reflexivity|].
  apply (submit_incomplete ["crane"] "crane"
           (run ["crane"] "crane" (letter_keys "cra") (initial 6 qwerty))).
  vm_compute. lia.
Defined.

(** ** The keyboard overlay *)

(** C4. Read with the precedence [correct > wrong-location > wrong >
    unknown], the status of a letter on the keyboard never goes down over
    any sequence of events, whatever guesses are submitted; a letter that
    is [correct] stays [correct].  (The class list of the key may still
    gain other classes; the best one stays.) *)
Theorem overlay_monotone (d : list string) (tw letter : string)
    (es : list Event) (p : Page) :
  rank (statusOf letter p) ≤ rank (statusOf letter (run d tw es p)) ∧
  (statusOf letter p = correct → statusOf letter (run d tw es p) = correct).
Proof.
  assert (Hrank : rank (statusOf letter p) ≤
                  rank (statusOf letter (run d tw es p))).
  { pose proof (key_of_keyboard_le letter p (run d tw es p)
                  (keyboard_le_run d tw es p)) as H.
    unfold statusOf. destruct (key_of letter p) as [k|].
    - destruct H as (k' & -> & Hle). by apply best_status_mono.
    - simpl. lia. }
  split; [exact Hrank|].
  intros Hc. rewrite Hc in Hrank.
  destruct (statusOf letter (run d tw es p)); simpl in Hrank; try lia.
  reflexivity.
Qed.

Lemma overlay_monotone_witness :
  let d := ["cares"; "acorn"] in
  let p := run d "crane" (typing "cares") (initial 6 qwerty) in
  statusOf "c" p = correct ∧
  rank (statusOf "c" p) ≤
    rank (statusOf "c" (run d "crane" (typing "acorn") p)) ∧
  statusOf "c" (run d "crane" (typing "acorn") p) = correct.
Proof.
  split; [reflexivity|].
  destruct (overlay_monotone ["cares"; "acorn"] "crane" "c" (typing "acorn")
              (run ["cares"; "acorn"] "crane" (typing "cares")
                   (initial 6 qwerty))) as [H1 H2].
  split; [exact H1 | apply H2; reflexivity].
Defined.

(** C9. No event removes a class from a key: over any sequence of events
    every key keeps its [data-key] and every class it has, and an evaluated
    letter adds its state to the class list of its key.  A key can so carry
    several status classes at once: with "crane" as the word, the key "C"
    is [correct] after "cares" and both [correct] and [wrong-location]
    after "acorn". *)
Theorem key_classes_only_grow :
  (∀ (d : list string) (tw : string) (es : list Event) (p : Page),
     Forall2 (λ k k', data_key k = data_key k' ∧
                      ∀ c, In c (classList k) → In c (classList k'))
             (keyboard p) (keyboard (run d tw es p))) ∧
  (∀ (tw : string) (f : Flip) (p : Page) (key : nat) (k : Key),
     f_key f = Some key → keyboard p !! key = Some k →
     ∃ k', keyboard (transitionend tw f p) !! key = Some k' ∧
           In (flip_state tw (f_index f) (f_letter f)) (classList k')) ∧
  (let d := ["cares"; "acorn"] in
   let p1 := run d "crane" (typing "cares") (initial 6 qwerty) in
   let p2 := run d "crane" (typing "acorn") p1 in
   classList <$> key_of "c" p1 = Some ["correct"] ∧
   classList <$> key_of "c" p2 = Some ["correct"; "wrong-location"]).
Proof.
  split; [|split].
  - intros d tw es p. apply keyboard_le_run.
  - intros tw f p key k Hf Hk.
    rewrite transitionend_keyboard, Hf.
    rewrite list_lookup_alter_eq, Hk. simpl. eexists. split; [reflexivity|].
    apply has_class_In. unfold has_class, classList_add.
    destruct (existsb _ (classList k)) eqn:E; [exact E|].
    simpl. rewrite existsb_app. simpl.
    rewrite String.eqb_refl. apply orb_true_r.
  - split; vm_compute; reflexivity.
Qed.

Lemma key_classes_only_grow_witness :
  let p := run [] "crane" (letter_keys "cares") (initial 6 qwerty) in
  let f := flipTile 0 0 (getActiveTiles p) "cares" p in
  ∃ k', keyboard (transitionend "crane" f p) !! 21 = Some k' ∧
        In (flip_state "crane" (f_index f) (f_letter f)) (classList k').
Proof.
  destruct key_classes_only_grow as (_ & H & _).
  apply (H "crane"
           (flipTile 0 0
              (getActiveTiles
                 (run [] "crane" (letter_keys "cares") (initial 6 qwerty)))
              "cares"
              (run [] "crane" (letter_keys "cares") (initial 6 qwerty)))
           (run [] "crane" (letter_keys "cares") (initial 6 qwerty))
           21 (mkKey "C" [])); reflexivity.
Defined.

(** ** The end of the game *)

Lemma dispatch_detached (d : list string) (tw : string) (e : Event) (p : Page) :
  listening p = false → dispatch d tw e p = p.
Proof. intros H. unfold dispatch. rewrite H. reflexivity. Qed.

Lemma run_detached (d : list string) (tw : string) (es : list Event) (p : Page) :
  listening p = false → run d tw es p = p.
Proof.
  intros H. induction es as [|e es IH]; [reflexivity|].
  simpl. rewrite dispatch_detached by exact H. exact IH.
Qed.

(** C7. Once the page shows that the game is won or lost, it is final: the
    listeners are detached, no key press, deletion or submission reaches
    its handler, and no sequence of events changes the page again (tiles,
    keys, alerts and listeners). *)
Theorem decided_is_final (d : list string) (tw : string) (rows : nat)
    (keys : list Key) (p : Page) (es : list Event) :
  reachable d tw rows keys p →
  outcome p ≠ in_progress →
  listening p = false ∧ run d tw es p = p.
Proof.
  intros Hr Hout.
  assert (Hl : listening p = false).
  { apply (inv_decided rows p); [|exact Hout].
    apply (reachable_board_inv d tw rows keys p Hr). }
  split; [exact Hl | apply run_detached, Hl].
Qed.

Lemma decided_is_final_witness :
  let d := ["trace"; "crane"] in
  let p := run d "crane" (typing "trace" ++ typing "crane") (initial 6 qwerty) in
  outcome p = won ∧
  listening p = false ∧
  run d "crane" [keydown "a"; keydown "Backspace"; keydown "Enter"] p = p.
Proof.
  split; [reflexivity|].
  apply (decided_is_final ["trace"; "crane"] "crane" 6 qwerty).
  - apply reachable_run. constructor.
  - vm_compute. discriminate.
Defined.

(** ** The input accumulator *)

(** C8. In every reachable page the active tiles never exceed
    [WORD_LENGTH], also after [pressKey]; [pressKey] on a full row and
    [deleteKey] on a row without active tiles leave the page as it is. *)
Theorem accumulator_bounds (d : list string) (tw : string) (rows : nat)
    (keys : list Key) (p : Page) (key : string) :
  reachable d tw rows keys p →
  length (getActiveTiles (pressKey key p)) ≤ WORD_LENGTH ∧
  (length (getActiveTiles p) = WORD_LENGTH → pressKey key p = p) ∧
  (length (getActiveTiles p) = 0 → deleteKey p = p).
Proof.
  intros Hr. split; [|split].
  - apply (inv_active rows). apply board_inv_pressKey.
    apply (reachable_board_inv d tw rows keys p Hr).
  - intros H. unfold pressKey. rewrite H, Nat.leb_refl. reflexivity.
  - intros H. unfold deleteKey.
    unfold getActiveTiles in *. by rewrite last_querySelectorAll_None.
Qed.

Lemma accumulator_bounds_witness :
  let d := ["crane"] in
  let full := run d "crane" (letter_keys "crane") (initial 6 qwerty) in
  length (getActiveTiles full) = WORD_LENGTH ∧
  length (getActiveTiles (pressKey "s" full)) ≤ WORD_LENGTH ∧
  pressKey "s" full = full ∧
  length (getActiveTiles (initial 6 qwerty)) = 0 ∧
  deleteKey (initial 6 qwerty) = initial 6 qwerty.
Proof.
  split; [reflexivity|].
  destruct (accumulator_bounds ["crane"] "crane" 6 qwerty
              (run ["crane"] "crane" (letter_keys "crane") (initial 6 qwerty))
              "s") as (H1 & H2 & _).
  { apply reachable_run. constructor. }
  destruct (accumulator_bounds ["crane"] "crane" 6 qwerty
              (initial 6 qwerty) "s") as (_ & _ & H3).
  { constructor. }
  split; [exact H1|]. split; [apply H2; reflexivity|].
  split; [reflexivity | apply H3; reflexivity].
Defined.

(** C10. In every reachable page of a grid with at least one row, while
    the listeners are attached (so the game is not decided) and fewer than
    [WORD_LENGTH] tiles are active, a tile without [data-letter] exists:
    the [querySelector] of [pressKey] finds one and [nextTile] is never
    [null]. *)
Theorem next_tile_exists (d : list string) (tw : string) (rows : nat)
    (keys : list Key) (p : Page) :
  0 < rows →
  reachable d tw rows keys p →
  listening p = true →
  length (getActiveTiles p) < WORD_LENGTH →
  outcome p = in_progress ∧
  ∃ nextTile t,
    querySelector not_data_letter (guessGrid p) = Some nextTile ∧
    guessGrid p !! nextTile = Some t ∧ data_letter t = None.
Proof.
  intros Hrows Hr Hl Ha.
  pose proof (reachable_board_inv d tw rows keys p Hr) as Hinv.
  split; [by apply (board_inv_in_progress rows)|].
  pose proof (inv_open rows p Hinv Hrows Hl) as Hopen.
  destruct (querySelector_is_Some not_data_letter (guessGrid p))
    as [i Hi]; [lia|].
  destruct (querySelector_Some _ _ _ Hi) as (t & Ht & Hblank).
  exists i, t. split; [exact Hi|]. split; [exact Ht|].
  unfold not_data_letter in Hblank.
  destruct (data_letter t); [discriminate | reflexivity].
Qed.

Lemma next_tile_exists_witness :
  let d := ["trace"] in
  let p := run d "crane" (typing "trace" ++ letter_keys "cra")
               (initial 6 qwerty) in
  outcome p = in_progress ∧
  ∃ nextTile t,
    querySelector not_data_letter (guessGrid p) = Some nextTile ∧
    guessGrid p !! nextTile = Some t ∧ data_letter t = None.
Proof.
  apply (next_tile_exists ["trace"] "crane" 6 qwerty).
  - lia.
  - apply reachable_run. constructor.
  - reflexivity.
  - vm_compute. lia.
Defined.

(** ** On the usual markup every letter of a row has its key *)

Lemma lower_ascii_idem (c : ascii) :
  JS.lower_ascii (JS.lower_ascii c) = JS.lower_ascii c.
Proof. destruct c as [[] [] [] [] [] [] [] []]; reflexivity. Qed.

Lemma toLowerCase_idem (w : string) :
  JS.toLowerCase (JS.toLowerCase w) = JS.toLowerCase w.
Proof.
  induction w as [|c w IH]; [reflexivity|].
  simpl. rewrite lower_ascii_idem, IH. reflexivity.
Qed.

Lemma toLowerCase_lower_letter (key : string) :
  JS.is_lower_letter key = true → JS.toLowerCase key = key.
Proof.
  destruct key as [|c [|? ?]]; try discriminate.
  destruct c as [[] [] [] [] [] [] [] []]; try discriminate; reflexivity.
Qed.

Lemma key_matches_toLowerCase (key : string) (k : Key) :
  key_matches (JS.toLowerCase key) k = key_matches key k.
Proof. unfold key_matches. rewrite toLowerCase_idem. reflexivity. Qed.

Lemma querySelector_ext {A} (sel sel' : A → bool) (l : list A) :
  (∀ x, sel x = sel' x) → querySelector sel l = querySelector sel' l.
Proof.
  intros H. unfold querySelector, querySelectorAll. f_equal.
  generalize 0. induction l as [|x l IH]; intros i; simpl; [reflexivity|].
  rewrite H, !IH. reflexivity.
Qed.

Lemma querySelector_In {A} (sel : A → bool) (l : list A) (x : A) :
  In x l → sel x = true → is_Some (querySelector sel l).
Proof.
  intros Hin Hx. apply list_elem_of_In, list_elem_of_lookup in Hin as [i Hi].
  assert (Hq : i ∈ querySelectorAll sel l)
    by (apply querySelectorAll_elem; eauto).
  unfold querySelector. destruct (querySelectorAll sel l); [inversion Hq|].
  simpl. eauto.
Qed.

Lemma on_page_key (keys : list Key) (key : string) :
  In key (map data_key keys) →
  is_Some (querySelector (key_matches (JS.toLowerCase key)) keys).
Proof.
  intros H. apply in_map_iff in H as (k & Hk & Hin).
  apply (querySelector_In _ keys k Hin).
  rewrite key_matches_toLowerCase. unfold key_matches.
  rewrite Hk. apply String.eqb_refl.
Qed.

Lemma complete_key (keys : list Key) (key : string) :
  keyboard_complete keys → JS.is_lower_letter key = true →
  is_Some (querySelector (key_matches (JS.toLowerCase key)) keys).
Proof.
  intros Hc Hk. rewrite (toLowerCase_lower_letter key Hk). by apply Hc.
Qed.

Lemma keyed_pressKey (keys : list Key) (key : string) (p : Page) :
  is_Some (querySelector (key_matches (JS.toLowerCase key)) keys) →
  keyed keys (guessGrid p) → keyed keys (guessGrid (pressKey key p)).
Proof.
  intros Hk H. unfold pressKey.
  destruct (_ <=? _); [exact H|].
  destruct (querySelector not_data_letter (guessGrid p)); [|exact H].
  apply Forall_insert; [exact H|]. simpl. intros letter [= <-]. exact Hk.
Qed.

Lemma keyed_deleteKey (keys : list Key) (p : Page) :
  keyed keys (guessGrid p) → keyed keys (guessGrid (deleteKey p)).
Proof.
  intros H. unfold deleteKey. destruct (last _); [|exact H].
  apply Forall_insert; [exact H|]. discriminate.
Qed.

Lemma keyed_flip_grid (keys : list Key) (tw : string) (j : nat) (g : list Tile) :
  keyed keys g → keyed keys (flip_grid tw j g).
Proof.
  intros H. revert j.
  induction H as [|t g Ht Hg IH]; intros j; cbn [flip_grid]; [constructor|].
  destruct (state_active t); constructor; try apply IH; exact Ht.
Qed.

Lemma keyed_submitGuess (keys : list Key) (d : list string) (tw : string)
    (p : Page) :
  keyed keys (guessGrid p) → keyed keys (guessGrid (submitGuess d tw p)).
Proof.
  intros H.
  destruct (decide (length (getActiveTiles p) = WORD_LENGTH)) as [Hfull|Hne].
  2:{ rewrite submitGuess_incomplete by assumption. exact H. }
  destruct (in_dictionary d (current_guess p)) eqn:Hd.
  2:{ rewrite submitGuess_invalid by assumption. exact H. }
  rewrite submitGuess_valid_guessGrid by assumption.
  by apply keyed_flip_grid.
Qed.

Lemma played_reachable (d : list string) (tw : string) (rows : nat)
    (keys : list Key) (p : Page) :
  played d tw rows keys p → reachable d tw rows keys p.
Proof. induction 1; constructor; assumption. Qed.

Lemma played_keyed (d : list string) (tw : string) (rows : nat)
    (keys : list Key) (p : Page) :
  keyboard_complete keys → played d tw rows keys p →
  keyed keys (guessGrid p).
Proof.
  intros Hc H. induction H as [|e p _ IH He].
  - apply Forall_replicate. discriminate.
  - unfold dispatch. destruct (listening p); [|exact IH].
    destruct e as [target|key].
    + unfold handleMouseClick. simpl in He. destruct (t_key target).
      * apply keyed_pressKey; [by apply on_page_key | exact IH].
      * destruct (t_enter target); [by apply keyed_submitGuess|].
        destruct (t_delete target); [by apply keyed_deleteKey | exact IH].
    + unfold handleKeyPress.
      destruct (String.eqb key "Enter"); [by apply keyed_submitGuess|].
      destruct (_ || _); [by apply keyed_deleteKey|].
      destruct (JS.is_lower_letter key) eqn:Hk; [|exact IH].
      apply keyed_pressKey; [by apply complete_key | exact IH].
Qed.

Lemma reachable_keyboard_le (d : list string) (tw : string) (rows : nat)
    (keys : list Key) (p : Page) :
  reachable d tw rows keys p → keyboard_le keys (keyboard p).
Proof.
  induction 1 as [|e p _ IH]; [apply keyboard_le_refl|].
  eapply keyboard_le_trans; [exact IH | apply keyboard_le_dispatch].
Qed.

(** On the usual markup the key of the last letter of a full row is always
    found, so the callback of the last tile always reaches [checkWinLose]. *)
Lemma played_last_key (d : list string) (tw : string) (rows : nat)
    (keys : list Key) (p : Page) :
  keyboard_complete keys → played d tw rows keys p →
  length (getActiveTiles p) = WORD_LENGTH →
  is_Some (last_key p).
Proof.
  intros Hc Hp Hfull.
  pose proof (played_keyed d tw rows keys p Hc Hp) as Hkeyed.
  pose proof (played_reachable d tw rows keys p Hp) as Hr.
  pose proof (reachable_board_inv d tw rows keys p Hr) as Hinv.
  pose proof (reachable_keyboard_le d tw rows keys p Hr) as Hle.
  unfold last_key.
  destruct (last (getActiveTiles p)) as [tile|] eqn:Hlast.
  2:{ apply last_None in Hlast. rewrite Hlast in Hfull. discriminate. }
  apply last_querySelectorAll in Hlast as (t & Ht & Hact).
  assert (Hin : t ∈ guessGrid p) by (apply list_elem_of_lookup; eauto).
  pose proof (inv_lettered rows p Hinv) as Hlet.
  rewrite Forall_forall in Hlet. specialize (Hlet t Hin Hact).
  unfold keyed in Hkeyed. rewrite Forall_forall in Hkeyed.
  specialize (Hkeyed t Hin). simpl. rewrite Ht. simpl.
  unfold not_data_letter in Hlet.
  destruct (data_letter t) as [letter|]; [|discriminate]. simpl.
  unfold querySelector, querySelectorAll.
  rewrite (matching_from_keyboard_le letter 0 _ _ Hle).
  by apply Hkeyed.
Qed.

Lemma qwerty_complete : keyboard_complete qwerty.
Proof.
  intros key Hk. destruct key as [|c [|? ?]]; try discriminate.
  destruct c as [[] [] [] [] [] [] [] []]; try discriminate;
    vm_compute; eauto.
Qed.

(** ** Win, loss, or the next row *)

Lemma reachable_listening_in_progress (d : list string) (tw : string)
    (rows : nat) (keys : list Key) (p : Page) :
  reachable d tw rows keys p → listening p = true → outcome p = in_progress.
Proof.
  intros Hr Hl. apply (board_inv_in_progress rows); [|exact Hl].
  apply (reachable_board_inv d tw rows keys p Hr).
Qed.

(** C6. A full row that holds a word of the list is submitted in a
    reachable page (the keyboard has a key for the last letter of the row,
    so that the callback of the last tile reaches [checkWinLose]; on the
    usual markup it always has, see [played_last_key]).  Then
    the game is won exactly when the guess is the word of the day; it is
    lost exactly when the guess is another word and no empty row is left;
    and otherwise it goes on: the listeners are attached again, no tile is
    active and an empty row is left for the next guess. *)
Theorem outcome_after_submission (d : list string) (tw : string) (rows : nat)
    (keys : list Key) (p : Page) :
  reachable d tw rows keys p →
  listening p = true →
  length (getActiveTiles p) = WORD_LENGTH →
  in_dictionary d (current_guess p) = true →
  is_Some (last_key p) →
  let p' := submitGuess d tw p in
  (outcome p' = won ↔ current_guess p = tw) ∧
  (outcome p' = lost ↔ current_guess p ≠ tw ∧ empty_rows p' = 0) ∧
  (outcome p' = in_progress →
   listening p' = true ∧ getActiveTiles p' = [] ∧ 0 < empty_rows p').
Proof.
  intros Hr Hl Hfull Hd Hkey p'.
  pose proof (reachable_listening_in_progress d tw rows keys p Hr Hl) as Hprog.
  pose proof (reachable_board_inv d tw rows keys p Hr) as Hinv.
  pose proof (board_inv_submitGuess d tw rows p Hinv Hl) as Hinv'.
  fold p' in Hinv'.
  pose proof (submitGuess_valid_cases d tw p Hfull Hd) as Hcases.
  cbn zeta in Hcases. fold p' in Hcases.
  assert (HA : getActiveTiles p' = []).
  { apply length_zero_iff_nil. unfold getActiveTiles, p'.
    rewrite submitGuess_valid_guessGrid by assumption.
    apply flip_grid_active. }
  destruct (inv_rows rows p' Hinv') as [k Hk]. rewrite HA in Hk. simpl in Hk.
  assert (Hrows : empty_rows p' = rows - k).
  { unfold empty_rows.
    replace (length (querySelectorAll not_data_letter (guessGrid p')))
      with ((rows - k) * WORD_LENGTH) by (unfold WORD_LENGTH in *; lia).
    apply Nat.div_mul. discriminate. }
  assert (Hzero : empty_rows p' = 0 ↔
                  length (querySelectorAll not_data_letter (guessGrid p')) = 0).
  { rewrite Hrows. unfold WORD_LENGTH in *. lia. }
  destruct Hkey as [key Hkey]. rewrite Hkey in Hcases.
  destruct (String.eqb (current_guess p) tw) eqn:Eg.
  - apply String.eqb_eq in Eg. destruct Hcases as [Ha _].
    assert (Hwon : outcome p' = won)
      by (unfold outcome; rewrite Ha; reflexivity).
    rewrite Hwon. split; [tauto|]. split; [|discriminate].
    split; [discriminate | tauto].
  - apply String.eqb_neq in Eg.
    destruct (_ =? 0) eqn:E0.
    + apply Nat.eqb_eq in E0. destruct Hcases as [Ha _].
      assert (Hlost : outcome p' = lost).
      { rewrite <- (outcome_loss (JS.toUpperCase tw) p Hprog).
        apply outcome_alerts. rewrite Ha. reflexivity. }
      rewrite Hlost. split; [split; [discriminate | tauto]|].
      split; [|discriminate]. rewrite Hzero. tauto.
    + apply Nat.eqb_neq in E0. destruct Hcases as [Ha Hl'].
      assert (Hgo : outcome p' = in_progress)
        by (rewrite <- Hprog; apply outcome_alerts, Ha).
      rewrite Hgo. split; [split; [discriminate | tauto]|].
      split; [split; [discriminate|]; rewrite Hzero; tauto|].
      intros _. split; [exact Hl'|]. split; [exact HA|].
      rewrite Hrows in *. unfold WORD_LENGTH in *. lia.
Qed.

Lemma outcome_after_submission_witness :
  let d := ["trace"; "crane"] in
  let first_row := run d "crane" (letter_keys "trace") (initial 6 qwerty) in
  let second_row :=
    run d "crane" (typing "trace" ++ letter_keys "crane") (initial 6 qwerty) in
  let last_row :=
    run d "knoll"
        (typing "trace" ++ typing "trace" ++ typing "trace" ++
         typing "trace" ++ typing "trace" ++ letter_keys "trace")
        (initial 6 qwerty) in
  outcome (submitGuess d "crane" second_row) = won ∧
  outcome (submitGuess d "knoll" last_row) = lost ∧
  (listening (submitGuess d "crane" first_row) = true ∧
   getActiveTiles (submitGuess d "crane" first_row) = [] ∧
   0 < empty_rows (submitGuess d "crane" first_row)).
Proof.
  split; [|split].
  - apply (outcome_after_submission ["trace"; "crane"] "crane" 6 qwerty).
    + apply reachable_run. constructor.
    + reflexivity.
    + reflexivity.
    + reflexivity.
    + vm_compute. eauto.
    + reflexivity.
  - apply (outcome_after_submission ["trace"; "crane"] "knoll" 6 qwerty).
    + apply reachable_run. constructor.
    + reflexivity.
    + reflexivity.
    + reflexivity.
    + vm_compute. eauto.
    + split; [vm_compute; discriminate | reflexivity].
  - apply (outcome_after_submission ["trace"; "crane"] "crane" 6 qwerty).
    + apply reachable_run. constructor.
    + reflexivity.
    + reflexivity.
    + reflexivity.
    + vm_compute. eauto.
    + reflexivity.
Defined.

(** ** The loss scenario *)

(** With "knoll" as the word and six rows, six submissions of another word
    of the list end the game: the word is shown in upper case and stays,
    the listeners are detached. *)
Example six_misses_lose :
  let d := ["trace"] in
  let es := typing "trace" ++ typing "trace" ++ typing "trace" ++
            typing "trace" ++ typing "trace" in
  let p5 := run d "knoll" es (initial 6 qwerty) in
  let p6 := run d "knoll" (typing "trace") p5 in
  outcome p5 = in_progress ∧ listening p5 = true ∧
  outcome p6 = lost ∧ listening p6 = false ∧
  alertContainer p6 = [mkAlert "KNOLL" None] ∧
  empty_rows p6 = 0.
Proof. repeat split; vm_compute; reflexivity. Qed.

(** * Further properties of the script *)

(** ** Selectors over a grid in three parts *)

Section SelectorsApp.

Context {A : Type} (sel : A → bool).

Lemma matching_from_app (off : nat) (l1 l2 : list A) :
  matching_from sel off (l1 ++ l2) =
  matching_from sel off l1 ++ matching_from sel (off + length l1) l2.
Proof.
  revert off. induction l1 as [|x l1 IH]; intros off; simpl.
  - rewrite Nat.add_0_r. reflexivity.
  - rewrite IH. replace (S off + length l1) with (off + S (length l1)) by lia.
    destruct (sel x); reflexivity.
Qed.

Lemma matching_from_none (off : nat) (l : list A) :
  Forall (λ x, sel x = false) l → matching_from sel off l = [].
Proof.
  intros H. revert off. induction H as [|x l Hx _ IH]; intros off; simpl;
    [reflexivity|]. rewrite Hx. apply IH.
Qed.

Lemma matching_from_all (off : nat) (l : list A) :
  Forall (λ x, sel x = true) l → matching_from sel off l = seq off (length l).
Proof.
  intros H. revert off. induction H as [|x l Hx _ IH]; intros off; simpl;
    [reflexivity|]. rewrite Hx, IH. reflexivity.
Qed.

End SelectorsApp.

Lemma is_status_not_active (t : Tile) :
  is_status (data_state t) = true → state_active t = false.
Proof.
  unfold is_status, state_active. destruct (data_state t) as [s|]; [|discriminate].
  intros H. simpl.
  destruct (String.eqb s "active") eqn:E; [|reflexivity].
  apply String.eqb_eq in E. subst. discriminate.
Qed.

Lemma tile_done_spec (t : Tile) :
  tile_done t = true →
  not_data_letter t = false ∧ state_active t = false.
Proof.
  unfold tile_done. intros H. apply andb_true_iff in H as [H1 H2].
  apply negb_true_iff in H1. auto using is_status_not_active.
Qed.

Lemma tile_active_spec (t : Tile) :
  tile_active t = true →
  not_data_letter t = false ∧ state_active t = true.
Proof.
  unfold tile_active. intros H. apply andb_true_iff in H as [H1 H2].
  apply negb_true_iff in H1. auto.
Qed.

Section Shape.

Variables (done act : list Tile) (n : nat).
Hypothesis Hdone : Forall (λ t, tile_done t = true) done.
Hypothesis Hact : Forall (λ t, tile_active t = true) act.

Let g := done ++ act ++ replicate n empty_tile.

Lemma shape_active_tiles :
  querySelectorAll state_active g = seq (length done) (length act).
Proof.
  unfold querySelectorAll, g. rewrite !matching_from_app. simpl.
  rewrite (matching_from_none state_active 0 done).
  2:{ eapply Forall_impl; [exact Hdone|]. intros t Ht.
      by apply tile_done_spec in Ht as [_ ?]. }
  rewrite (matching_from_all state_active _ act).
  2:{ eapply Forall_impl; [exact Hact|]. intros t Ht.
      by apply tile_active_spec in Ht as [_ ?]. }
  rewrite (matching_from_none state_active _ (replicate n empty_tile)).
  2:{ apply Forall_replicate. reflexivity. }
  simpl. rewrite app_nil_r. reflexivity.
Qed.

Lemma shape_blank_tiles :
  querySelectorAll not_data_letter g = seq (length done + length act) n.
Proof.
  unfold querySelectorAll, g. rewrite !matching_from_app. simpl.
  rewrite (matching_from_none not_data_letter 0 done).
  2:{ eapply Forall_impl; [exact Hdone|]. intros t Ht.
      by apply tile_done_spec in Ht as [? _]. }
  rewrite (matching_from_none not_data_letter _ act).
  2:{ eapply Forall_impl; [exact Hact|]. intros t Ht.
      by apply tile_active_spec in Ht as [? _]. }
  rewrite (matching_from_all not_data_letter _ (replicate n empty_tile)).
  2:{ apply Forall_replicate. reflexivity. }
  simpl. rewrite length_replicate. reflexivity.
Qed.

End Shape.

(** ** The handlers on a grid in three parts *)

Lemma insert_after (l1 l2 : list Tile) (x y : Tile) :
  <[length l1 := y]> (l1 ++ x :: l2) = l1 ++ y :: l2.
Proof.
  replace (length l1) with (length l1 + 0) by lia.
  rewrite insert_app_r. reflexivity.
Qed.

Lemma pressKey_shape (key : string) (p : Page) (done act : list Tile) (n : nat) :
  guessGrid p = done ++ act ++ replicate (S n) empty_tile →
  Forall (λ t, tile_done t = true) done →
  Forall (λ t, tile_active t = true) act →
  length act < WORD_LENGTH →
  pressKey key p =
  set_grid (done ++ (act ++ [typed_tile key]) ++ replicate n empty_tile) p.
Proof.
  intros Hg Hdone Hact Hlt. unfold pressKey, getActiveTiles, querySelector.
  rewrite Hg, (shape_active_tiles done act (S n) Hdone Hact), length_seq.
  rewrite (shape_blank_tiles done act (S n) Hdone Hact).
  apply Nat.leb_gt in Hlt. rewrite Hlt. simpl. f_equal.
  rewrite (app_assoc done act), <- length_app, insert_after.
  rewrite <- !app_assoc. reflexivity.
Qed.

Lemma deleteKey_shape (p : Page) (done act : list Tile) (t : Tile) (n : nat) :
  guessGrid p = done ++ (act ++ [t]) ++ replicate n empty_tile →
  Forall (λ t, tile_done t = true) done →
  Forall (λ t, tile_active t = true) (act ++ [t]) →
  deleteKey p = set_grid (done ++ act ++ replicate (S n) empty_tile) p.
Proof.
  intros Hg Hdone Hact. unfold deleteKey, getActiveTiles.
  rewrite Hg, (shape_active_tiles done (act ++ [t]) n Hdone Hact).
  rewrite length_app. simpl. rewrite Nat.add_1_r, seq_S, last_snoc.
  f_equal. rewrite <- (app_assoc act), (app_assoc done act), <- length_app.
  simpl. rewrite insert_after, <- app_assoc. reflexivity.
Qed.

Lemma deleteKey_no_active (p : Page) (done : list Tile) (n : nat) :
  guessGrid p = done ++ [] ++ replicate n empty_tile →
  Forall (λ t, tile_done t = true) done →
  deleteKey p = p.
Proof.
  intros Hg Hdone. unfold deleteKey, getActiveTiles.
  rewrite Hg, (shape_active_tiles done [] n Hdone (List.Forall_nil _)).
  reflexivity.
Qed.

Section FlipShape.

Variable targetWord : string.

Lemma flip_grid_inactive (j : nat) (l : list Tile) :
  Forall (λ t, state_active t = false) l → flip_grid targetWord j l = l.
Proof.
  intros H. induction H as [|t l Ht _ IH]; simpl; [reflexivity|].
  rewrite Ht, IH. reflexivity.
Qed.

Lemma flip_grid_app (j : nat) (l1 l2 : list Tile) :
  flip_grid targetWord j (l1 ++ l2) =
  flip_grid targetWord j l1 ++
  flip_grid targetWord (j + length (querySelectorAll state_active l1)) l2.
Proof.
  revert j. induction l1 as [|t l1 IH]; intros j.
  - simpl. rewrite Nat.add_0_r. reflexivity.
  - rewrite querySelectorAll_cons. cbn [app flip_grid].
    set (c := length (querySelectorAll state_active l1)).
    destruct (state_active t); cbn [Nat.b2n]; rewrite IH; fold c.
    + replace (j + (1 + c)) with (S j + c) by lia. reflexivity.
    + reflexivity.
Qed.

Lemma flip_state_is_status (i : nat) (letter : option string) :
  is_status (Some (flip_state targetWord i letter)) = true.
Proof.
  destruct (flip_state_cases targetWord i letter) as [[-> _]|[[-> _]|[-> _]]];
    reflexivity.
Qed.

Lemma flip_grid_done (j : nat) (act : list Tile) :
  Forall (λ t, tile_active t = true) act →
  Forall (λ t, tile_done t = true) (flip_grid targetWord j act).
Proof.
  intros H. revert j. induction H as [|t l Ht _ IH]; intros j;
    cbn [flip_grid]; [constructor|].
  apply tile_active_spec in Ht as [Hl Ha]. rewrite Ha.
  constructor; [|apply IH].
  unfold tile_done. cbn [set_state data_state].
  rewrite flip_state_is_status.
  unfold not_data_letter in *. simpl. rewrite Hl. reflexivity.
Qed.

Lemma flip_grid_shape (done act : list Tile) (n : nat) :
  Forall (λ t, tile_done t = true) done →
  flip_grid targetWord 0 (done ++ act ++ replicate n empty_tile) =
  done ++ flip_grid targetWord 0 act ++ replicate n empty_tile.
Proof.
  intros Hdone.
  assert (Hin : Forall (λ t, state_active t = false) done).
  { eapply Forall_impl; [exact Hdone|]. intros t Ht.
    by apply tile_done_spec in Ht as [_ ?]. }
  rewrite !flip_grid_app, (flip_grid_inactive 0 done Hin).
  rewrite (flip_grid_inactive _ (replicate n empty_tile))
    by (apply Forall_replicate; reflexivity).
  unfold querySelectorAll.
  rewrite (matching_from_none state_active 0 done Hin). reflexivity.
Qed.

End FlipShape.

(** ** The layout is kept by every handler *)

Lemma board_shape_length (rows : nat) (g done act : list Tile) (n : nat) :
  board_shape rows g done act n →
  length done + length act + n = rows * WORD_LENGTH.
Proof.
  intros (Hg & _ & _ & _ & _ & Hlen). rewrite Hg in Hlen.
  rewrite !length_app, length_replicate in Hlen. lia.
Qed.

Lemma typed_tile_active (key : string) : tile_active (typed_tile key) = true.
Proof. reflexivity. Qed.

Section ShapeInvariant.

Variable dictionary : list string.
Variable targetWord : string.
Variable rows : nat.

Lemma board_shape_initial (keys : list Key) :
  board_shape rows (guessGrid (initial rows keys)) [] [] (rows * WORD_LENGTH).
Proof.
  unfold board_shape. simpl. rewrite length_replicate.
  repeat split; try constructor; try lia. exists 0. reflexivity.
Qed.

Lemma board_shape_pressKey (key : string) (p : Page)
    (done act : list Tile) (n : nat) :
  board_shape rows (guessGrid p) done act n →
  ∃ act' n', board_shape rows (guessGrid (pressKey key p)) done act' n'.
Proof.
  intros Hs. pose proof Hs as (Hg & Hdone & Hact & Hk & Hle & Hlen).
  destruct (decide (length act < WORD_LENGTH)) as [Hlt|Hfull].
  - destruct n as [|n].
    + exists act, 0.
      assert (Hsame : pressKey key p = p).
      { assert (Hb : querySelectorAll not_data_letter (guessGrid p) = [])
          by (rewrite Hg; apply (shape_blank_tiles done act 0 Hdone Hact)).
        unfold pressKey, querySelector. rewrite Hb.
        destruct (WORD_LENGTH <=? length (getActiveTiles p)); reflexivity. }
      rewrite Hsame. exact Hs.
    + exists (act ++ [typed_tile key]), n.
      rewrite (pressKey_shape key p done act n Hg Hdone Hact Hlt).
      unfold board_shape. simpl. split; [reflexivity|].
      split; [exact Hdone|]. split.
      { apply Forall_app. split; [exact Hact|].
        constructor; [apply typed_tile_active | constructor]. }
      split; [exact Hk|]. rewrite length_app. simpl. split; [lia|].
      rewrite <- Hlen, Hg, !length_app. simpl. rewrite !length_replicate. lia.
  - exists act, n.
    assert (Hsame : pressKey key p = p).
    { assert (Ha : length (getActiveTiles p) = length act).
      { unfold getActiveTiles.
        rewrite Hg, (shape_active_tiles done act n Hdone Hact).
        apply length_seq. }
      unfold pressKey. rewrite Ha.
      assert (E : (WORD_LENGTH <=? length act) = true)
        by (apply Nat.leb_le; lia).
      rewrite E. reflexivity. }
    rewrite Hsame. exact Hs.
Qed.

Lemma board_shape_deleteKey (p : Page) (done act : list Tile) (n : nat) :
  board_shape rows (guessGrid p) done act n →
  ∃ act' n', board_shape rows (guessGrid (deleteKey p)) done act' n'.
Proof.
  intros Hs. pose proof Hs as (Hg & Hdone & Hact & Hk & Hle & Hlen).
  destruct act as [|t act _] using rev_ind.
  - exists [], n. rewrite (deleteKey_no_active p done n Hg Hdone). exact Hs.
  - exists act, (S n).
    rewrite (deleteKey_shape p done act t n Hg Hdone Hact).
    unfold board_shape. simpl. split; [reflexivity|].
    split; [exact Hdone|].
    apply Forall_app in Hact as [Hact _]. split; [exact Hact|].
    split; [exact Hk|]. rewrite length_app in Hle. simpl in Hle.
    split; [lia|].
    rewrite <- Hlen, Hg, !length_app. simpl. rewrite !length_replicate. lia.
Qed.

Lemma submitGuess_guessGrid (p : Page) :
  guessGrid (submitGuess dictionary targetWord p) = guessGrid p ∨
  (length (getActiveTiles p) = WORD_LENGTH ∧
   in_dictionary dictionary (current_guess p) = true ∧
   guessGrid (submitGuess dictionary targetWord p) =
   flip_grid targetWord 0 (guessGrid p)).
Proof.
  destruct (decide (length (getActiveTiles p) = WORD_LENGTH)) as [Hfull|Hne].
  2:{ left. rewrite submitGuess_incomplete by assumption. reflexivity. }
  destruct (in_dictionary dictionary (current_guess p)) eqn:Hd.
  2:{ left. rewrite submitGuess_invalid by assumption. reflexivity. }
  right. split; [exact Hfull|]. split; [reflexivity|].
  by apply submitGuess_valid_guessGrid.
Qed.

Lemma board_shape_submitGuess (p : Page) (done act : list Tile) (n : nat) :
  board_shape rows (guessGrid p) done act n →
  ∃ ext act', board_shape rows
                (guessGrid (submitGuess dictionary targetWord p))
                (done ++ ext) act' n.
Proof.
  intros Hs. pose proof Hs as (Hg & Hdone & Hact & [k Hk] & Hle & Hlen).
  destruct (submitGuess_guessGrid p) as [->|(Hfull & _ & ->)].
  { exists [], act. rewrite app_nil_r. exact Hs. }
  unfold getActiveTiles in Hfull.
  rewrite Hg, (shape_active_tiles done act n Hdone Hact), length_seq in Hfull.
  exists (flip_grid targetWord 0 act), [].
  rewrite Hg, (flip_grid_shape targetWord done act n Hdone).
  unfold board_shape. split; [by rewrite <- app_assoc|].
  split.
  { apply Forall_app. split; [exact Hdone|]. by apply flip_grid_done. }
  split; [constructor|]. split.
  { exists (S k). rewrite length_app, flip_grid_length, Hk, Hfull. lia. }
  split; [simpl; lia|].
  rewrite <- Hlen, Hg, !length_app, flip_grid_length. reflexivity.
Qed.

Lemma board_shape_dispatch (e : Event) (p : Page)
    (done act : list Tile) (n : nat) :
  board_shape rows (guessGrid p) done act n →
  ∃ ext act' n',
    board_shape rows (guessGrid (dispatch dictionary targetWord e p))
                (done ++ ext) act' n'.
Proof.
  intros Hs. unfold dispatch.
  assert (Hsame : ∃ ext act' n',
             board_shape rows (guessGrid p) (done ++ ext) act' n').
  { exists [], act, n. rewrite app_nil_r. exact Hs. }
  assert (Hpress : ∀ key, ∃ ext act' n',
             board_shape rows (guessGrid (pressKey key p))
                         (done ++ ext) act' n').
  { intros key. destruct (board_shape_pressKey key p done act n Hs)
      as (act' & n' & H). exists [], act', n'. rewrite app_nil_r. exact H. }
  assert (Hdel : ∃ ext act' n',
             board_shape rows (guessGrid (deleteKey p)) (done ++ ext) act' n').
  { destruct (board_shape_deleteKey p done act n Hs) as (act' & n' & H).
    exists [], act', n'. rewrite app_nil_r. exact H. }
  assert (Hsub : ∃ ext act' n',
             board_shape rows
               (guessGrid (submitGuess dictionary targetWord p))
               (done ++ ext) act' n').
  { destruct (board_shape_submitGuess p done act n Hs) as (d' & a' & H). eauto. }
  destruct (listening p); [|exact Hsame].
  destruct e as [target|key].
  - unfold handleMouseClick. destruct (t_key target); [apply Hpress|].
    destruct (t_enter target); [exact Hsub|].
    destruct (t_delete target); [exact Hdel | exact Hsame].
  - unfold handleKeyPress.
    destruct (String.eqb key "Enter"); [exact Hsub|].
    destruct (_ || _); [exact Hdel|].
    destruct (JS.is_lower_letter key); [apply Hpress | exact Hsame].
Qed.

End ShapeInvariant.

Lemma board_shape_reachable (d : list string) (tw : string) (rows : nat)
    (keys : list Key) (p : Page) :
  reachable d tw rows keys p →
  ∃ done act n, board_shape rows (guessGrid p) done act n.
Proof.
  intros H. induction H as [|e p _ (done & act & n & IH)].
  - exists [], [], (rows * WORD_LENGTH). apply board_shape_initial.
  - destruct (board_shape_dispatch d tw rows e p done act n IH)
      as (ext & act' & n' & H). eauto.
Qed.

(** ** Typing and deleting *)

Lemma lookup_seq_middle {B} (f : option Tile → B) (done act rest : list Tile) :
  map (λ i, f ((done ++ act ++ rest) !! i)) (seq (length done) (length act)) =
  map (λ t, f (Some t)) act.
Proof.
  revert done. induction act as [|t act IH]; intros done; [reflexivity|].
  cbn [length seq map]. f_equal.
  - rewrite lookup_app_r by lia. rewrite Nat.sub_diag. reflexivity.
  - specialize (IH (done ++ [t])).
    rewrite length_app in IH. simpl in IH. rewrite Nat.add_1_r in IH.
    rewrite <- app_assoc in IH. exact IH.
Qed.

Lemma foldl_map {A B C} (f : C → B → C) (h : A → B) (l : list A) (c : C) :
  foldl (λ acc x, f acc (h x)) c l = foldl f c (map h l).
Proof. revert c. induction l as [|x l IH]; intros c; simpl; auto. Qed.

Lemma current_guess_shape (p : Page) (done act : list Tile) (n : nat) :
  guessGrid p = done ++ act ++ replicate n empty_tile →
  Forall (λ t, tile_done t = true) done →
  Forall (λ t, tile_active t = true) act →
  current_guess p = word_of act.
Proof.
  intros Hg Hdone Hact. unfold current_guess, word_of, getActiveTiles.
  rewrite Hg, (shape_active_tiles done act n Hdone Hact).
  rewrite (foldl_map (λ word (o : option string),
                        (word ++ JS.to_string o)%string)
                     (λ tile, (_ !! tile) ≫= data_letter)).
  rewrite (lookup_seq_middle (λ o, o ≫= data_letter)).
  rewrite <- (foldl_map (λ word (o : option string),
                           (word ++ JS.to_string o)%string)
                        (λ t, Some t ≫= data_letter)).
  reflexivity.
Qed.

Lemma word_of_snoc (act : list Tile) (t : Tile) :
  word_of (act ++ [t]) =
  (word_of act ++ JS.to_string (data_letter t))%string.
Proof. unfold word_of. rewrite foldl_app. reflexivity. Qed.

Lemma set_grid_same (p : Page) : set_grid (guessGrid p) p = p.
Proof. destruct p. reflexivity. Qed.

Lemma set_grid_twice (g g' : list Tile) (p : Page) :
  set_grid g (set_grid g' p) = set_grid g p.
Proof. reflexivity. Qed.

(** A reachable page that listens and has room in its row has an empty
    tile after the active ones. *)
Lemma reachable_room (d : list string) (tw : string) (rows : nat)
    (keys : list Key) (p : Page) :
  0 < rows →
  reachable d tw rows keys p →
  listening p = true →
  ∃ done act n,
    board_shape rows (guessGrid p) done act n ∧
    length (getActiveTiles p) = length act ∧
    WORD_LENGTH ≤ n + length act.
Proof.
  intros Hrows Hr Hl.
  destruct (board_shape_reachable d tw rows keys p Hr) as (done & act & n & Hs).
  exists done, act, n. split; [exact Hs|].
  destruct Hs as (Hg & Hdone & Hact & _).
  pose proof (inv_open rows p (reachable_board_inv d tw rows keys p Hr)
                Hrows Hl) as Hopen.
  unfold getActiveTiles in *.
  rewrite Hg, (shape_active_tiles done act n Hdone Hact),
    (shape_blank_tiles done act n Hdone Hact), !length_seq in *.
  split; [reflexivity | lia].
Qed.

(** X1. In every reachable page the grid is laid out in document order as
    whole rows of submitted tiles (each with its letter and one of the three
    evaluated states), then at most [WORD_LENGTH] active tiles with their
    letters, then tiles that are entirely empty.  So letters are entered
    left to right without gaps: the active tiles are the positions right
    after the submitted rows, and the tiles without [data-letter] are
    exactly the positions after those. *)
Theorem reachable_board_shape (d : list string) (tw : string) (rows : nat)
    (keys : list Key) (p : Page) :
  reachable d tw rows keys p →
  ∃ done act n,
    board_shape rows (guessGrid p) done act n ∧
    getActiveTiles p = seq (length done) (length act) ∧
    querySelectorAll not_data_letter (guessGrid p) =
      seq (length done + length act) n.
Proof.
  intros Hr.
  destruct (board_shape_reachable d tw rows keys p Hr) as (done & act & n & Hs).
  exists done, act, n. split; [exact Hs|].
  destruct Hs as (Hg & Hdone & Hact & _). unfold getActiveTiles.
  rewrite Hg. split.
  - apply shape_active_tiles; assumption.
  - apply shape_blank_tiles; assumption.
Qed.

Lemma reachable_board_shape_witness :
  let p := run ["trace"] "crane" (typing "trace" ++ letter_keys "cr")
               (initial 6 qwerty) in
  ∃ done act n,
    board_shape 6 (guessGrid p) done act n ∧
    getActiveTiles p = seq (length done) (length act) ∧
    querySelectorAll not_data_letter (guessGrid p) =
      seq (length done + length act) n.
Proof.
  apply (reachable_board_shape ["trace"] "crane" 6 qwerty).
  apply reachable_run. constructor.
Defined.

(** X2. [deleteKey] undoes [pressKey]: in a reachable page of a grid with
    rows, while the listeners are attached and the row is not full, pressing
    any key and then deleting gives back the very same page. *)
Theorem deleteKey_pressKey (d : list string) (tw : string) (rows : nat)
    (keys : list Key) (p : Page) (key : string) :
  0 < rows →
  reachable d tw rows keys p →
  listening p = true →
  length (getActiveTiles p) < WORD_LENGTH →
  pressKey key p ≠ p ∧ deleteKey (pressKey key p) = p.
Proof.
  intros Hrows Hr Hl Hlt.
  destruct (reachable_room d tw rows keys p Hrows Hr Hl)
    as (done & act & n & Hs & Ha & Hn).
  destruct Hs as (Hg & Hdone & Hact & _).
  rewrite Ha in Hlt. destruct n as [|n]; [lia|].
  rewrite (pressKey_shape key p done act n Hg Hdone Hact Hlt).
  split.
  - intros E. apply (f_equal guessGrid) in E. simpl in E. rewrite Hg in E.
    apply app_inv_head in E. rewrite <- app_assoc in E.
    apply app_inv_head in E. discriminate.
  - rewrite (deleteKey_shape _ done act (typed_tile key) n); try assumption.
    + rewrite set_grid_twice, <- Hg. apply set_grid_same.
    + reflexivity.
    + apply Forall_app. split; [exact Hact|].
      constructor; [reflexivity | constructor].
Qed.

Lemma deleteKey_pressKey_witness :
  let p := run ["trace"] "crane" (typing "trace" ++ letter_keys "cr")
               (initial 6 qwerty) in
  pressKey "A" p ≠ p ∧ deleteKey (pressKey "A" p) = p.
Proof.
  apply (deleteKey_pressKey ["trace"] "crane" 6 qwerty).
  - lia.
  - apply reachable_run. constructor.
  - reflexivity.
  - vm_compute. lia.
Defined.

(** X3. In a reachable page of a grid with rows, while the listeners are
    attached and the row is not full, [pressKey] adds exactly one active
    tile and appends the lower-cased key to the word that [submitGuess]
    would read from the row. *)
Theorem pressKey_appends (d : list string) (tw : string) (rows : nat)
    (keys : list Key) (p : Page) (key : string) :
  0 < rows →
  reachable d tw rows keys p →
  listening p = true →
  length (getActiveTiles p) < WORD_LENGTH →
  length (getActiveTiles (pressKey key p)) = S (length (getActiveTiles p)) ∧
  current_guess (pressKey key p) =
    (current_guess p ++ JS.toLowerCase key)%string.
Proof.
  intros Hrows Hr Hl Hlt.
  destruct (reachable_room d tw rows keys p Hrows Hr Hl)
    as (done & act & n & Hs & Ha & Hn).
  destruct Hs as (Hg & Hdone & Hact & _).
  rewrite Ha in *. destruct n as [|n]; [lia|].
  rewrite (pressKey_shape key p done act n Hg Hdone Hact Hlt).
  assert (Hact' : Forall (λ t, tile_active t = true) (act ++ [typed_tile key])).
  { apply Forall_app. split; [exact Hact|].
    constructor; [reflexivity | constructor]. }
  split.
  - unfold getActiveTiles. simpl guessGrid.
    rewrite (shape_active_tiles done _ n Hdone Hact'), length_seq, length_app.
    simpl. lia.
  - rewrite (current_guess_shape _ done (act ++ [typed_tile key]) n);
      [|reflexivity|assumption|assumption].
    rewrite (current_guess_shape p done act (S n) Hg Hdone Hact).
    apply word_of_snoc.
Qed.

Lemma pressKey_appends_witness :
  let p := run ["trace"] "crane" (typing "trace" ++ letter_keys "cr")
               (initial 6 qwerty) in
  length (getActiveTiles (pressKey "A" p)) = S (length (getActiveTiles p)) ∧
  current_guess (pressKey "A" p) =
    (current_guess p ++ JS.toLowerCase "A")%string.
Proof.
  apply (pressKey_appends ["trace"] "crane" 6 qwerty).
  - lia.
  - apply reachable_run. constructor.
  - reflexivity.
  - vm_compute. lia.
Defined.

(** ** Entering a whole word *)

Lemma dispatch_letter (d : list string) (tw : string) (c : ascii) (p : Page) :
  listening p = true →
  JS.is_lower_letter (letter_string c) = true →
  dispatch d tw (keydown (letter_string c)) p = pressKey (letter_string c) p.
Proof.
  intros Hl Hc. unfold dispatch, handleKeyPress. rewrite Hl, Hc.
  assert (H1 : String.eqb (letter_string c) "Enter" = false)
    by (unfold letter_string; simpl; destruct (Ascii.eqb c _); reflexivity).
  assert (H2 : String.eqb (letter_string c) "Backspace" = false)
    by (unfold letter_string; simpl; destruct (Ascii.eqb c _); reflexivity).
  assert (H3 : String.eqb (letter_string c) "Delete" = false)
    by (unfold letter_string; simpl; destruct (Ascii.eqb c _); reflexivity).
  rewrite H1, H2, H3. reflexivity.
Qed.

Lemma run_letter_keys (d : list string) (tw : string) (cs : list ascii)
    (p : Page) (done act : list Tile) (n : nat) :
  guessGrid p = done ++ act ++ replicate n empty_tile →
  Forall (λ t, tile_done t = true) done →
  Forall (λ t, tile_active t = true) act →
  listening p = true →
  forallb (λ c, JS.is_lower_letter (letter_string c)) cs = true →
  length act + length cs ≤ WORD_LENGTH →
  length cs ≤ n →
  run d tw (map (λ c, keydown (letter_string c)) cs) p =
  set_grid (done ++ (act ++ map (λ c, typed_tile (letter_string c)) cs)
                 ++ replicate (n - length cs) empty_tile) p.
Proof.
  revert p act n. induction cs as [|c cs IH]; intros p act n Hg Hdone Hact Hl
    Hlow Hroom Hn.
  - simpl. rewrite app_nil_r, Nat.sub_0_r, <- Hg. symmetry. apply set_grid_same.
  - cbn [forallb length] in Hlow, Hroom, Hn.
    apply andb_true_iff in Hlow as [Hc Hlow].
    destruct n as [|n]; [lia|].
    cbn [map run foldl]. rewrite (dispatch_letter d tw c p Hl Hc).
    rewrite (pressKey_shape _ p done act n Hg Hdone Hact) by lia.
    change (foldl (λ q e, dispatch d tw e q) ?q ?es) with (run d tw es q).
    rewrite (IH _ (act ++ [typed_tile (letter_string c)]) n);
      try assumption; try reflexivity.
    + rewrite set_grid_twice, <- (app_assoc act). reflexivity.
    + apply Forall_app. split; [exact Hact|].
      constructor; [reflexivity | constructor].
    + rewrite length_app. simpl. lia.
    + lia.
Qed.

Lemma typed_letters (cs : list ascii) :
  forallb (λ c, JS.is_lower_letter (letter_string c)) cs = true →
  map (λ t, Some t ≫= data_letter)
      (map (λ c, typed_tile (letter_string c)) cs) =
  map (λ c, Some (letter_string c)) cs.
Proof.
  induction cs as [|c cs IH]; intros H; [reflexivity|].
  cbn [forallb] in H. apply andb_true_iff in H as [Hc H].
  cbn [map]. rewrite (IH H). f_equal.
  unfold typed_tile. cbn [mbind option_bind data_letter].
  rewrite (toLowerCase_lower_letter _ Hc). reflexivity.
Qed.

(** X4. Entering a word: in a reachable page of a grid with rows, with the
    listeners attached and no active tile, pressing the five lower-case
    letters of a word of the list and then Enter fills the next five tiles
    with these letters and gives them, in order, the states
    [evaluate targetWord w]. *)
Theorem typing_evaluates (d : list string) (tw w : string) (rows : nat)
    (keys : list Key) (p : Page) :
  0 < rows →
  reachable d tw rows keys p →
  listening p = true →
  getActiveTiles p = [] →
  lower_word w = true →
  String.length w = WORD_LENGTH →
  In w d →
  let q := run d tw (letter_keys w) p in
  length (getActiveTiles q) = WORD_LENGTH ∧
  current_guess q = w ∧
  states_at (getActiveTiles q) (run d tw (typing w) p) =
    map Some (evaluate tw w).
Proof.
  intros Hrows Hr Hl Hnone Hlow Hlen Hin q.
  destruct (reachable_room d tw rows keys p Hrows Hr Hl)
    as (done & act & n & Hs & Ha & Hn).
  destruct Hs as (Hg & Hdone & Hact & _).
  rewrite Hnone in Ha. destruct act; [|discriminate]. simpl in Hn.
  assert (Hcs : length (letters w) = WORD_LENGTH)
    by (rewrite letters_length; exact Hlen).
  assert (Hq : q = set_grid
                     (done ++ ([] ++ map (λ c, typed_tile (letter_string c))
                                         (letters w))
                           ++ replicate (n - length (letters w)) empty_tile) p).
  { apply (run_letter_keys d tw (letters w) p done [] n); try assumption.
    - simpl. lia.
    - lia. }
  simpl app in Hq.
  set (act := map (λ c, typed_tile (letter_string c)) (letters w)) in *.
  assert (Hact' : Forall (λ t, tile_active t = true) act).
  { apply Forall_forall. intros t Ht. apply list_elem_of_fmap in Ht as (c & -> & _).
    reflexivity. }
  assert (Hgq : guessGrid q =
                done ++ act ++ replicate (n - length (letters w)) empty_tile)
    by (rewrite Hq; reflexivity).
  assert (Hids : getActiveTiles q = seq (length done) (length act)).
  { unfold getActiveTiles. rewrite Hgq. by apply shape_active_tiles. }
  assert (Hrow : row_holds w q).
  { unfold row_holds. rewrite Hids, Hgq.
    rewrite (lookup_seq_middle (λ o, o ≫= data_letter)).
    apply typed_letters, Hlow. }
  assert (Hlq : listening q = true) by (rewrite Hq; exact Hl).
  split; [rewrite (row_holds_length w q Hrow); exact Hlen|].
  split; [apply row_holds_guess, Hrow|].
  unfold typing. rewrite run_app. fold (letter_keys w). fold q.
  cbn [run foldl]. unfold dispatch, handleKeyPress.
  rewrite Hlq, String.eqb_refl.
  by apply submitGuess_evaluate.
Qed.

Lemma typing_evaluates_witness :
  let d := ["trace"; "crane"] in
  let p := run d "crane" (typing "trace") (initial 6 qwerty) in
  let q := run d "crane" (letter_keys "crane") p in
  length (getActiveTiles q) = WORD_LENGTH ∧
  current_guess q = "crane" ∧
  states_at (getActiveTiles q) (run d "crane" (typing "crane") p) =
    map Some (evaluate "crane" "crane").
Proof.
  apply (typing_evaluates ["trace"; "crane"] "crane" "crane" 6 qwerty).
  - lia.
  - apply reachable_run. constructor.
  - reflexivity.
  - reflexivity.
  - reflexivity.
  - reflexivity.
  - simpl. tauto.
Defined.

(** ** Submissions that are not evaluated, or not to the end *)

(** X5. A full row whose word is not in the list is not evaluated:
    [submitGuess] shows "Not in word list" and changes nothing else, so the
    row can still be edited.  The list is consulted before the word of the
    day: this also holds when the row spells the word of the day. *)
Theorem submit_not_in_list (d : list string) (tw : string) (p : Page) :
  length (getActiveTiles p) = WORD_LENGTH →
  in_dictionary d (current_guess p) = false →
  let p' := submitGuess d tw p in
  alertContainer p' =
    mkAlert "Not in word list" (Some 1000) :: alertContainer p ∧
  guessGrid p' = guessGrid p ∧
  keyboard p' = keyboard p ∧
  listening p' = listening p ∧
  outcome p' = outcome p.
Proof.
  intros Hfull Hd p'. subst p'. rewrite submitGuess_invalid by assumption.
  rewrite outcome_timed. repeat split.
Qed.

Lemma submit_not_in_list_witness :
  let d := ["trace"] in
  let p := run d "crane" (letter_keys "crane") (initial 6 qwerty) in
  let p' := submitGuess d "crane" p in
  current_guess p = "crane" ∧
  alertContainer p' =
    mkAlert "Not in word list" (Some 1000) :: alertContainer p ∧
  guessGrid p' = guessGrid p ∧
  keyboard p' = keyboard p ∧
  listening p' = listening p ∧
  outcome p' = outcome p.
Proof.
  split; [reflexivity|].
  apply (submit_not_in_list ["trace"] "crane"
           (run ["trace"] "crane" (letter_keys "crane") (initial 6 qwerty)));
    reflexivity.
Defined.

(** X6. When the keyboard has no key for the last letter of a valid row,
    the tiles of the row are still evaluated, but the callback of the last
    tile stops at [key.classList.add]: [startInteraction] and [checkWinLose]
    are never reached.  No alert is shown, the listeners stay detached and
    no later event changes the page, even when the row spells the word of
    the day. *)
Theorem submit_without_last_key (d : list string) (tw : string) (p : Page)
    (es : list Event) :
  length (getActiveTiles p) = WORD_LENGTH →
  in_dictionary d (current_guess p) = true →
  last_key p = None →
  let p' := submitGuess d tw p in
  guessGrid p' = flip_grid tw 0 (guessGrid p) ∧
  alertContainer p' = alertContainer p ∧
  listening p' = false ∧
  run d tw es p' = p'.
Proof.
  intros Hfull Hd Hkey p'.
  pose proof (submitGuess_valid_cases d tw p Hfull Hd) as H.
  cbn zeta in H. fold p' in H. rewrite Hkey in H. destruct H as [Ha Hl].
  split; [by apply submitGuess_valid_guessGrid|].
  split; [exact Ha|]. split; [exact Hl|]. apply run_detached, Hl.
Qed.

Lemma submit_without_last_key_witness :
  let d := ["crane"] in
  let p := run d "crane" (letter_keys "crane") (initial 6 []) in
  let p' := submitGuess d "crane" p in
  current_guess p = "crane" ∧
  guessGrid p' = flip_grid "crane" 0 (guessGrid p) ∧
  alertContainer p' = alertContainer p ∧
  listening p' = false ∧
  run d "crane" [keydown "a"; keydown "Enter"] p' = p'.
Proof.
  split; [reflexivity|].
  apply (submit_without_last_key ["crane"] "crane"
           (run ["crane"] "crane" (letter_keys "crane") (initial 6 [])));
    reflexivity.
Defined.

(** ** More on the states of a row *)

Lemma get_None (w : string) (i : nat) :
  String.get i w = None ↔ String.length w ≤ i.
Proof. rewrite <- letters_lookup, <- letters_length. apply lookup_ge_None. Qed.

Lemma evaluate_lookup_correct (S G : string) (i : nat) (c : ascii) :
  String.get i G = Some c →
  evaluate S G !! i = Some "correct" ↔ String.get i S = Some c.
Proof.
  intros Hc. rewrite evaluate_lookup, Hc. simpl.
  destruct (flip_state_cases S i (Some (letter_string c)))
    as [[-> H]|[[-> [H _]]|[-> [H _]]]].
  - apply strict_eq_at_index in H. tauto.
  - split; [discriminate|]. intros E.
    apply strict_eq_at_index in E. congruence.
  - split; [discriminate|]. intros E.
    apply strict_eq_at_index in E. congruence.
Qed.

Lemma evaluate_all_correct (S G : string) :
  String.length S = String.length G →
  evaluate S G = replicate (String.length G) "correct" ↔ G = S.
Proof.
  intros Hlen. split.
  - intros H. apply String.get_correct. intros i.
    destruct (String.get i G) as [c|] eqn:Hc.
    + symmetry. apply (evaluate_lookup_correct S G i c Hc).
      rewrite H. apply lookup_replicate_2.
      destruct (le_lt_dec (String.length G) i) as [Hge|Hlt]; [|exact Hlt].
      apply get_None in Hge. congruence.
    + symmetry. apply get_None. rewrite Hlen. by apply get_None.
  - intros ->. apply list_eq. intros i.
    destruct (String.get i S) as [c|] eqn:Hc.
    + rewrite (proj2 (evaluate_lookup_correct S S i c Hc) Hc).
      symmetry. apply lookup_replicate_2.
      destruct (le_lt_dec (String.length S) i) as [Hge|Hlt]; [|exact Hlt].
      apply get_None in Hge. congruence.
    + rewrite evaluate_lookup, Hc. simpl. symmetry.
      apply lookup_replicate_None. by apply get_None.
Qed.

(** When [checkWinLose] is reached, the page shows a win exactly when the
    guess is the word of the day. *)
Lemma submit_won_iff (d : list string) (tw : string) (rows : nat)
    (keys : list Key) (p : Page) :
  reachable d tw rows keys p →
  listening p = true →
  length (getActiveTiles p) = WORD_LENGTH →
  in_dictionary d (current_guess p) = true →
  is_Some (last_key p) →
  outcome (submitGuess d tw p) = won ↔ current_guess p = tw.
Proof.
  intros Hr Hl Hfull Hd [key Hkey].
  pose proof (reachable_listening_in_progress d tw rows keys p Hr Hl) as Hprog.
  pose proof (submitGuess_valid_cases d tw p Hfull Hd) as Hcases.
  cbn zeta in Hcases. rewrite Hkey in Hcases.
  destruct (String.eqb (current_guess p) tw) eqn:Eg.
  - apply String.eqb_eq in Eg. destruct Hcases as [Ha _].
    split; [auto|]. intros _. unfold outcome. rewrite Ha. reflexivity.
  - apply String.eqb_neq in Eg.
    assert (Hnot : outcome (submitGuess d tw p) ≠ won).
    { destruct (_ =? 0); destruct Hcases as [Ha _].
      - rewrite (outcome_alerts _ (stopInteraction
                   (showAlert (JS.toUpperCase tw) None p)))
          by (rewrite Ha; reflexivity).
        rewrite (outcome_loss _ p Hprog). discriminate.
      - rewrite (outcome_alerts _ p Ha), Hprog. discriminate. }
    split; [intros H; contradiction | intros H; contradiction].
Qed.

(** X7. A row that holds the guess [G], a word of the list, is submitted in
    a reachable page whose word of the day has the same length
    [WORD_LENGTH] (and the keyboard has a key for the last letter).  On the
    page after [submitGuess] every tile of the row is [correct] exactly when
    the guess is the word of the day, and the page shows the win exactly
    when every tile of the row is [correct]: the states written by
    [flipTile] and the test [guess === targetWord] of [checkWinLose]
    agree. *)
Theorem all_correct_iff (d : list string) (tw G : string) (rows : nat)
    (keys : list Key) (p : Page) :
  reachable d tw rows keys p →
  listening p = true →
  row_holds G p →
  String.length G = WORD_LENGTH →
  String.length tw = WORD_LENGTH →
  In G d →
  is_Some (last_key p) →
  let p' := submitGuess d tw p in
  (states_at (getActiveTiles p) p' = replicate WORD_LENGTH (Some "correct")
   ↔ G = tw) ∧
  (outcome p' = won
   ↔ states_at (getActiveTiles p) p' = replicate WORD_LENGTH (Some "correct")).
Proof.
  intros Hr Hl Hrow Hlen Htw Hin Hkey p'. subst p'.
  pose proof (row_holds_guess G p Hrow) as Hguess.
  pose proof (row_holds_length G p Hrow) as Hids.
  assert (Hall : states_at (getActiveTiles p) (submitGuess d tw p) =
                 replicate WORD_LENGTH (Some "correct") ↔ G = tw).
  { rewrite (submitGuess_evaluate d tw G p Hrow Hlen Hin).
    rewrite <- (evaluate_all_correct tw G) by congruence.
    rewrite Hlen. change (replicate WORD_LENGTH (Some "correct"))
      with (map Some (replicate WORD_LENGTH "correct")).
    split; [|intros ->; reflexivity].
    intros H. revert H. generalize (replicate WORD_LENGTH "correct").
    induction (evaluate tw G) as [|x l IH]; intros [|y l'] H;
      try discriminate; [reflexivity|].
    simpl in H. injection H as -> H. f_equal. by apply IH. }
  split; [exact Hall|].
  rewrite Hall, <- Hguess.
  apply (submit_won_iff d tw rows keys p Hr Hl); try assumption.
  - congruence.
  - rewrite Hguess. by apply in_dictionary_In.
Qed.

Lemma all_correct_iff_witness :
  let d := ["trace"; "crane"] in
  let p := run d "crane" (typing "trace" ++ letter_keys "crane")
               (initial 6 qwerty) in
  let p' := submitGuess d "crane" p in
  (states_at (getActiveTiles p) p' = replicate WORD_LENGTH (Some "correct")
   ↔ "crane" = "crane") ∧
  (outcome p' = won
   ↔ states_at (getActiveTiles p) p' = replicate WORD_LENGTH (Some "correct")).
Proof.
  apply (all_correct_iff ["trace"; "crane"] "crane" "crane" 6 qwerty).
  - apply reachable_run. constructor.
  - reflexivity.
  - reflexivity.
  - reflexivity.
  - reflexivity.
  - simpl. tauto.
  - vm_compute. eauto.
Defined.

Lemma evaluate_wrong_states (S G : string) (i : nat) (c : ascii) :
  String.get i G = Some c →
  (evaluate S G !! i = Some "wrong" ↔ occurrences c S = 0) ∧
  (evaluate S G !! i = Some "wrong-location" ↔
   String.get i S ≠ Some c ∧ 0 < occurrences c S).
Proof.
  intros Hc. rewrite evaluate_lookup, Hc. simpl.
  pose proof (includes_occurrences S c) as Hocc.
  destruct (flip_state_cases S i (Some (letter_string c)))
    as [[-> H]|[[-> [H Hi]]|[-> [H Hi]]]]; cbn [JS.to_string] in *.
  - apply strict_eq_at_index in H.
    pose proof (get_In S i c H) as Hin.
    apply includes_letter, Hocc in Hin.
    split; split; try discriminate; try lia. tauto.
  - apply Hocc in Hi.
    assert (Hne : String.get i S ≠ Some c).
    { intros E. apply strict_eq_at_index in E. congruence. }
    split; split; try discriminate; try lia; auto.
  - assert (H0 : occurrences c S = 0).
    { destruct (occurrences c S) eqn:E; [reflexivity|].
      assert (Ht : JS.includes S (letter_string c) = true)
        by (apply Hocc; lia). congruence. }
    split; split; try discriminate; try lia; auto.
Qed.

(** X8. A row that holds the guess [G], a word of the list of length
    [WORD_LENGTH], is submitted.  On the page after [submitGuess] the tile
    at position [i] of the row, which holds the letter [c], carries the
    state [wrong] exactly when [c] does not occur in the word of the day,
    and [wrong-location] exactly when [c] occurs in the word but not at
    position [i]; what the other tiles of the row hold plays no part. *)
Theorem wrong_iff_absent (d : list string) (S G : string) (p : Page)
    (i : nat) (c : ascii) :
  row_holds G p →
  String.length G = WORD_LENGTH →
  In G d →
  String.get i G = Some c →
  (states_at (getActiveTiles p) (submitGuess d S p) !! i = Some (Some "wrong")
   ↔ occurrences c S = 0) ∧
  (states_at (getActiveTiles p) (submitGuess d S p) !! i
     = Some (Some "wrong-location")
   ↔ String.get i S ≠ Some c ∧ 0 < occurrences c S).
Proof.
  intros Hrow Hlen Hin Hc.
  rewrite !(submitted_state_lookup d S G p i _ Hrow Hlen Hin).
  by apply evaluate_wrong_states.
Qed.

Lemma wrong_iff_absent_witness :
  let d := ["trace"] in
  let p := run d "crane" (letter_keys "trace") (initial 6 qwerty) in
  (states_at (getActiveTiles p) (submitGuess d "crane" p) !! 0
     = Some (Some "wrong")
   ↔ occurrences "t" "crane" = 0) ∧
  (states_at (getActiveTiles p) (submitGuess d "crane" p) !! 0
     = Some (Some "wrong-location")
   ↔ String.get 0 "crane" ≠ Some "t"%char ∧ 0 < occurrences "t" "crane").
Proof.
  apply (wrong_iff_absent ["trace"] "crane" "trace"
           (run ["trace"] "crane" (letter_keys "trace") (initial 6 qwerty))
           0 "t").
  - reflexivity.
  - reflexivity.
  - simpl. tauto.
  - reflexivity.
Defined.

(** ** What a submission writes, tile by tile and key by key *)

Lemma flip_grid_lookup_inactive (tw : string) (g : list Tile) (j i : nat)
    (t : Tile) :
  g !! i = Some t → state_active t = false → flip_grid tw j g !! i = Some t.
Proof.
  revert j i. induction g as [|x g IH]; intros j [|i] H Ht; simpl in H;
    try discriminate.
  - injection H as ->. simpl. rewrite Ht. reflexivity.
  - simpl. destruct (state_active x); simpl; by apply IH.
Qed.

Lemma flip_grid_cases (tw : string) (g : list Tile) (i : nat) (t : Tile) :
  g !! i = Some t →
  (state_active t = false ∧ flip_grid tw 0 g !! i = Some t) ∨
  (state_active t = true ∧
   ∃ n, querySelectorAll state_active g !! n = Some i ∧
        flip_grid tw 0 g !! i =
        Some (set_state (flip_state tw n (data_letter t)) t)).
Proof.
  intros Hi. destruct (state_active t) eqn:Ht.
  - right. split; [reflexivity|].
    assert (Hin : i ∈ querySelectorAll state_active g)
      by (apply querySelectorAll_elem; eauto).
    apply list_elem_of_lookup in Hin as [n Hn]. exists n. split; [exact Hn|].
    destruct (flip_grid_lookup tw g 0 0 n i Hn) as (t' & Ht' & Hf).
    rewrite Nat.sub_0_r in Ht', Hf. simpl in Hf. congruence.
  - left. split; [reflexivity|]. by apply flip_grid_lookup_inactive.
Qed.

(** X9. [submitGuess] never changes the letter or the text of a tile and
    never adds or removes a tile.  A tile that was not active is left as it
    is; a tile that was active either stays as it is (the submission was
    rejected) or gets one of the states [correct], [wrong-location],
    [wrong]. *)
Theorem submitGuess_tiles (d : list string) (tw : string) (p : Page)
    (i : nat) (t : Tile) :
  guessGrid p !! i = Some t →
  length (guessGrid (submitGuess d tw p)) = length (guessGrid p) ∧
  ∃ t', guessGrid (submitGuess d tw p) !! i = Some t' ∧
        data_letter t' = data_letter t ∧
        textContent t' = textContent t ∧
        (t' = t ∨ (state_active t = true ∧ is_status (data_state t') = true)).
Proof.
  intros Hi.
  destruct (submitGuess_guessGrid d tw p) as [->|(_ & _ & ->)].
  { split; [reflexivity|]. exists t. auto. }
  split; [apply flip_grid_length|].
  destruct (flip_grid_cases tw (guessGrid p) i t Hi)
    as [[_ ->]|[Ht (n & _ & ->)]].
  - exists t. auto.
  - eexists. split; [reflexivity|]. split; [reflexivity|].
    split; [reflexivity|]. right. split; [exact Ht|].
    apply flip_state_is_status.
Qed.

Lemma submitGuess_tiles_witness :
  let d := ["trace"] in
  let p := run d "crane" (letter_keys "trace") (initial 6 qwerty) in
  length (guessGrid (submitGuess d "crane" p)) = length (guessGrid p) ∧
  ∃ t', guessGrid (submitGuess d "crane" p) !! 3 = Some t' ∧
        data_letter t' = data_letter (typed_tile "c") ∧
        textContent t' = textContent (typed_tile "c") ∧
        (t' = typed_tile "c" ∨
         (state_active (typed_tile "c") = true ∧
          is_status (data_state t') = true)).
Proof.
  apply (submitGuess_tiles ["trace"] "crane"
           (run ["trace"] "crane" (letter_keys "trace") (initial 6 qwerty))
           3 (typed_tile "c")).
  reflexivity.
Defined.

Section KeyboardWrites.

Variable dictionary : list string.
Variable targetWord : string.

Lemma foldl_transitionend_other_key (fl : list Flip) (p : Page) (k : nat) :
  Forall (λ f, f_key f ≠ Some k) fl →
  keyboard (foldl (λ q f, transitionend targetWord f q) p fl) !! k =
  keyboard p !! k.
Proof.
  intros H. revert p. induction H as [|f fl Hf _ IH]; intros p; simpl;
    [reflexivity|].
  rewrite IH, transitionend_keyboard.
  destruct (f_key f) as [key|]; [|reflexivity].
  apply list_lookup_alter_ne. congruence.
Qed.

Lemma transitionend_class (f : Flip) (p : Page) (key : nat) :
  f_key f = Some key → is_Some (keyboard p !! key) →
  ∃ k', keyboard (transitionend targetWord f p) !! key = Some k' ∧
        In (flip_state targetWord (f_index f) (f_letter f)) (classList k').
Proof.
  intros Hf [k Hk]. rewrite transitionend_keyboard, Hf.
  rewrite list_lookup_alter_eq, Hk. simpl. eexists. split; [reflexivity|].
  apply has_class_In. unfold has_class, classList_add.
  destruct (existsb _ (classList k)) eqn:E; [exact E|].
  simpl. rewrite existsb_app. simpl.
  rewrite String.eqb_refl. apply orb_true_r.
Qed.

Lemma foldl_transitionend_class (fl : list Flip) (p : Page) (f : Flip)
    (key : nat) :
  f ∈ fl → f_key f = Some key → is_Some (keyboard p !! key) →
  ∃ k', keyboard (foldl (λ q f, transitionend targetWord f q) p fl) !! key
        = Some k' ∧
        In (flip_state targetWord (f_index f) (f_letter f)) (classList k').
Proof.
  intros Hin Hf. revert p. induction fl as [|x fl IH]; intros p Hk;
    [inversion Hin|].
  simpl. apply elem_of_cons in Hin as [<-|Hin].
  - destruct (transitionend_class f p key Hf Hk) as (k1 & Hk1 & Hc).
    pose proof (keyboard_le_foldl targetWord fl (transitionend targetWord f p))
      as Hle.
    destruct (Forall2_lookup_l _ _ _ _ _ Hle Hk1) as (k' & Hk' & _ & Hsub).
    exists k'. auto.
  - apply (IH Hin).
    pose proof (keyboard_le_foldl targetWord [x] p) as Hle. simpl in Hle.
    destruct Hk as [k Hk].
    destruct (Forall2_lookup_l _ _ _ _ _ Hle Hk) as (k' & Hk' & _). eauto.
Qed.

End KeyboardWrites.

(** X10. Only the evaluation of a row writes to the keyboard, and only to
    the keys of the letters of the row: over any event, a key that
    [flipTile] would not find for any active tile keeps its class list. *)
Theorem other_keys_untouched (d : list string) (tw : string) (e : Event)
    (p : Page) (k : nat) :
  (∀ tile, tile ∈ getActiveTiles p →
     querySelector
       (key_matches (JS.to_string ((guessGrid p !! tile) ≫= data_letter)))
       (keyboard p) ≠ Some k) →
  keyboard (dispatch d tw e p) !! k = keyboard p !! k.
Proof.
  intros Hk.
  assert (Hsub : keyboard (submitGuess d tw p) !! k = keyboard p !! k).
  { destruct (decide (length (getActiveTiles p) = WORD_LENGTH)) as [Hfull|Hne].
    2:{ rewrite submitGuess_incomplete by assumption. reflexivity. }
    destruct (in_dictionary d (current_guess p)) eqn:Hd.
    2:{ rewrite submitGuess_invalid by assumption. reflexivity. }
    rewrite submitGuess_valid by assumption.
    rewrite foldl_transitionend_other_key; [reflexivity|].
    apply Forall_forall. intros f Hf.
    apply elem_of_lookup_imap in Hf as (n & tile & -> & Hn).
    apply Hk. apply list_elem_of_lookup. eauto. }
  unfold dispatch. destruct (listening p); [|reflexivity].
  destruct e as [target|key].
  - unfold handleMouseClick. destruct (t_key target).
    + rewrite pressKey_keyboard. reflexivity.
    + destruct (t_enter target); [exact Hsub|].
      destruct (t_delete target); [|reflexivity].
      rewrite deleteKey_keyboard. reflexivity.
  - unfold handleKeyPress.
    destruct (String.eqb key "Enter"); [exact Hsub|].
    destruct (_ || _); [rewrite deleteKey_keyboard; reflexivity|].
    destruct (JS.is_lower_letter key); [|reflexivity].
    rewrite pressKey_keyboard. reflexivity.
Qed.

Lemma other_keys_untouched_witness :
  let d := ["trace"] in
  let p := run d "crane" (letter_keys "trace") (initial 6 qwerty) in
  keyboard (dispatch d "crane" (keydown "Enter") p) !! 0 = keyboard p !! 0.
Proof.
  apply (other_keys_untouched ["trace"] "crane" (keydown "Enter")
           (run ["trace"] "crane" (letter_keys "trace") (initial 6 qwerty)) 0).
  intros tile Htile.
  change (getActiveTiles _) with [0; 1; 2; 3; 4] in Htile.
  repeat (apply elem_of_cons in Htile as [->|Htile]; [vm_compute; discriminate|]).
  inversion Htile.
Defined.

(** ** The keyboard covers the board *)

Lemma key_of_same_keyboard (letter : string) (p q : Page) :
  keyboard p = keyboard q → key_of letter p = key_of letter q.
Proof. unfold key_of. intros ->. reflexivity. Qed.

Lemma overlay_covers_insert (p : Page) (i : nat) (x : Tile) :
  (∀ letter s, data_letter x = Some letter → data_state x = Some s →
               s = "active") →
  overlay_covers p →
  overlay_covers (set_grid (<[i := x]> (guessGrid p)) p).
Proof.
  intros Hx Hp j t letter s k Hj Hl Hs Hne Hk. simpl in Hj.
  apply list_lookup_insert_Some in Hj as [(-> & <- & _)|(Hij & Hj)].
  - exfalso. apply Hne. by apply (Hx letter).
  - eapply Hp; eauto.
Qed.

Lemma overlay_covers_pressKey (key : string) (p : Page) :
  overlay_covers p → overlay_covers (pressKey key p).
Proof.
  intros Hp. unfold pressKey. destruct (_ <=? _); [exact Hp|].
  destruct (querySelector _ _); [|exact Hp].
  apply overlay_covers_insert; [|exact Hp].
  simpl. intros letter s _ [= <-]. reflexivity.
Qed.

Lemma overlay_covers_deleteKey (p : Page) :
  overlay_covers p → overlay_covers (deleteKey p).
Proof.
  intros Hp. unfold deleteKey. destruct (last _); [|exact Hp].
  apply overlay_covers_insert; [|exact Hp]. discriminate.
Qed.

Lemma overlay_covers_submitGuess (d : list string) (tw : string) (p : Page) :
  overlay_covers p → overlay_covers (submitGuess d tw p).
Proof.
  intros Hp.
  destruct (decide (length (getActiveTiles p) = WORD_LENGTH)) as [Hfull|Hne].
  2:{ rewrite submitGuess_incomplete by assumption. exact Hp. }
  destruct (in_dictionary d (current_guess p)) eqn:Hd.
  2:{ rewrite submitGuess_invalid by assumption. exact Hp. }
  intros i t' letter s k Hi Hl Hs Hne Hk.
  pose proof (keyboard_le_submitGuess d tw p) as Hle.
  rewrite submitGuess_valid_guessGrid in Hi by assumption.
  destruct (guessGrid p !! i) as [t0|] eqn:Hi0.
  2:{ apply lookup_ge_None in Hi0. rewrite <- (flip_grid_length tw 0) in Hi0.
      apply lookup_ge_None in Hi0. congruence. }
  destruct (flip_grid_cases tw (guessGrid p) i t0 Hi0)
    as [[_ Hsame]|[_ (n & Hn & Hflip)]].
  - rewrite Hsame in Hi. injection Hi as <-.
    pose proof (key_of_keyboard_le letter p _ Hle) as Hkey.
    destruct (key_of letter p) as [k0|] eqn:Hk0; [|congruence].
    destruct Hkey as (k' & Hk' & _ & Hsub).
    rewrite Hk in Hk'. injection Hk' as <-.
    apply Hsub. by apply (Hp i t0 letter s k0).
  - rewrite Hflip in Hi. injection Hi as <-. simpl in Hl, Hs.
    injection Hs as <-.
    unfold key_of in Hk.
    destruct (querySelector (key_matches letter)
                (keyboard (submitGuess d tw p))) as [kidx|] eqn:Hq;
      [|discriminate].
    simpl in Hk.
    assert (Hq0 : querySelector (key_matches letter) (keyboard p) = Some kidx).
    { unfold querySelector, querySelectorAll in *.
      rewrite (matching_from_keyboard_le letter 0 _ _ Hle) in Hq. exact Hq. }
    set (p1 := stopInteraction p).
    set (f := flipTile i n (getActiveTiles p) (current_guess p) p1).
    assert (Hf : f_key f = Some kidx).
    { unfold f, flipTile, p1. simpl. rewrite Hi0. simpl. rewrite Hl. exact Hq0. }
    destruct (foldl_transitionend_class tw
                (imap (λ index tile,
                         flipTile tile index (getActiveTiles p)
                                  (current_guess p) p1)
                      (getActiveTiles p))
                p1 f kidx) as (k' & Hk' & Hin).
    + apply elem_of_lookup_imap. exists n, i. auto.
    + exact Hf.
    + apply querySelector_Some in Hq0 as (x & Hx & _). simpl. eauto.
    + unfold p1 in Hk'.
      rewrite <- (submitGuess_valid d tw p Hfull Hd) in Hk'.
      rewrite Hk in Hk'. injection Hk' as ->.
      unfold f, flipTile in Hin. simpl in Hin. rewrite Hi0 in Hin.
      exact Hin.
Qed.

Lemma overlay_covers_reachable (d : list string) (tw : string) (rows : nat)
    (keys : list Key) (p : Page) :
  reachable d tw rows keys p → overlay_covers p.
Proof.
  intros H. induction H as [|e p _ IH].
  - intros i t letter s k Hi Hl. simpl in Hi.
    apply lookup_replicate in Hi as [-> _]. discriminate.
  - unfold dispatch. destruct (listening p); [|exact IH].
    destruct e as [target|key].
    + unfold handleMouseClick. destruct (t_key target).
      * by apply overlay_covers_pressKey.
      * destruct (t_enter target); [by apply overlay_covers_submitGuess|].
        destruct (t_delete target);
          [by apply overlay_covers_deleteKey | exact IH].
    + unfold handleKeyPress.
      destruct (String.eqb key "Enter");
        [by apply overlay_covers_submitGuess|].
      destruct (_ || _); [by apply overlay_covers_deleteKey|].
      destruct (JS.is_lower_letter key);
        [by apply overlay_covers_pressKey | exact IH].
Qed.

(** X11. The keyboard covers the board: in every reachable page, whatever
    state a submitted tile shows, the key of its letter (the one that
    [flipTile] looks up) carries that state among its classes.  A colour
    on the board is never missing from the keyboard. *)
Theorem keyboard_covers_board (d : list string) (tw : string) (rows : nat)
    (keys : list Key) (p : Page) (i : nat) (t : Tile) (letter s : string)
    (k : Key) :
  reachable d tw rows keys p →
  guessGrid p !! i = Some t →
  data_letter t = Some letter →
  data_state t = Some s →
  s ≠ "active" →
  key_of letter p = Some k →
  In s (classList k).
Proof.
  intros Hr. apply (overlay_covers_reachable d tw rows keys p Hr).
Qed.

Lemma keyboard_covers_board_witness :
  let p := run ["trace"] "crane" (typing "trace") (initial 6 qwerty) in
  guessGrid p !! 3 = Some (mkTile (Some "c") "c" (Some "wrong-location")) ∧
  key_of "c" p = Some (mkKey "C" ["wrong-location"]) ∧
  In "wrong-location" (classList (mkKey "C" ["wrong-location"])).
Proof.
  split; [reflexivity|]. split; [reflexivity|].
  apply (keyboard_covers_board ["trace"] "crane" 6 qwerty
           (run ["trace"] "crane" (typing "trace") (initial 6 qwerty))
           3 (mkTile (Some "c") "c" (Some "wrong-location")) "c"
           "wrong-location" (mkKey "C" ["wrong-location"])).
  - apply reachable_run. constructor.
  - reflexivity.
  - reflexivity.
  - reflexivity.
  - discriminate.
  - reflexivity.
Defined.

(** ** The board of a decided game *)

Lemma word_of_letters (l l' : list Tile) :
  map data_letter l = map data_letter l' → word_of l = word_of l'.
Proof.
  intros H. unfold word_of.
  rewrite !(foldl_map (λ word (o : option string),
                         (word ++ JS.to_string o)%string) data_letter).
  rewrite H. reflexivity.
Qed.

Lemma flip_grid_letters (tw : string) (j : nat) (l : list Tile) :
  map data_letter (flip_grid tw j l) = map data_letter l.
Proof.
  revert j. induction l as [|t l IH]; intros j; simpl; [reflexivity|].
  destruct (state_active t); simpl; rewrite IH; reflexivity.
Qed.

Lemma decided_board_in_progress (tw : string) (p : Page) :
  outcome p = in_progress → decided_board tw p.
Proof. unfold decided_board. intros ->. exact I. Qed.

Lemma pressKey_alertContainer (key : string) (p : Page) :
  alertContainer (pressKey key p) = alertContainer p.
Proof.
  unfold pressKey. destruct (_ <=? _); [reflexivity|].
  destruct (querySelector _ _); reflexivity.
Qed.

Lemma deleteKey_alertContainer (p : Page) :
  alertContainer (deleteKey p) = alertContainer p.
Proof. unfold deleteKey. destruct (last _); reflexivity. Qed.

Lemma decided_board_submitGuess (d : list string) (tw : string) (rows : nat)
    (keys : list Key) (p : Page) :
  reachable d tw rows keys p → listening p = true →
  decided_board tw (submitGuess d tw p).
Proof.
  intros Hr Hl.
  pose proof (reachable_listening_in_progress d tw rows keys p Hr Hl) as Hprog.
  destruct (decide (length (getActiveTiles p) = WORD_LENGTH)) as [Hfull|Hne].
  2:{ apply decided_board_in_progress.
      rewrite submitGuess_incomplete by assumption.
      rewrite outcome_timed. exact Hprog. }
  destruct (in_dictionary d (current_guess p)) eqn:Hd.
  2:{ apply decided_board_in_progress.
      rewrite submitGuess_invalid by assumption.
      rewrite outcome_timed. exact Hprog. }
  pose proof (submitGuess_valid_cases d tw p Hfull Hd) as Hcases.
  pose proof (submitGuess_valid_guessGrid d tw p Hfull Hd) as Hgrid.
  cbn zeta in Hcases.
  set (p' := submitGuess d tw p) in *.
  assert (HA : getActiveTiles p' = []).
  { apply length_zero_iff_nil. unfold getActiveTiles. rewrite Hgrid.
    apply flip_grid_active. }
  destruct (last_key p) as [lk|].
  2:{ apply decided_board_in_progress. rewrite <- Hprog.
      apply outcome_alerts. apply Hcases. }
  destruct (String.eqb (current_guess p) tw) eqn:Eg.
  - apply String.eqb_eq in Eg. destruct Hcases as [Ha _].
    unfold decided_board.
    assert (Hwon : outcome p' = won)
      by (unfold outcome; rewrite Ha; reflexivity).
    rewrite Hwon, Ha. split; [reflexivity|]. split; [exact HA|].
    destruct (board_shape_reachable d tw rows keys p Hr)
      as (done & act & n & Hg & Hdone & Hact & _).
    exists done, (flip_grid tw 0 act), n.
    rewrite Hgrid, Hg. split; [by apply flip_grid_shape|].
    split.
    { rewrite flip_grid_length. unfold getActiveTiles in Hfull.
      rewrite Hg, (shape_active_tiles done act n Hdone Hact), length_seq
        in Hfull. exact Hfull. }
    split; [by apply flip_grid_done|].
    rewrite (word_of_letters _ act (flip_grid_letters tw 0 act)).
    rewrite <- (current_guess_shape p done act n Hg Hdone Hact). exact Eg.
  - destruct (_ =? 0) eqn:E0.
    + apply Nat.eqb_eq, length_zero_iff_nil in E0. destruct Hcases as [Ha _].
      unfold decided_board.
      assert (Hlost : outcome p' = lost).
      { rewrite <- (outcome_loss (JS.toUpperCase tw) p Hprog).
        apply outcome_alerts. rewrite Ha. reflexivity. }
      rewrite Hlost, Ha. auto.
    + apply decided_board_in_progress. rewrite <- Hprog.
      apply outcome_alerts. apply Hcases.
Qed.

Lemma decided_board_reachable (d : list string) (tw : string) (rows : nat)
    (keys : list Key) (p : Page) :
  reachable d tw rows keys p → decided_board tw p.
Proof.
  intros H. induction H as [|e p Hr IH].
  - exact I.
  - unfold dispatch. destruct (listening p) eqn:Hl; [|exact IH].
    pose proof (reachable_listening_in_progress d tw rows keys p Hr Hl)
      as Hprog.
    assert (Hpress : ∀ key, decided_board tw (pressKey key p)).
    { intros key. apply decided_board_in_progress. rewrite <- Hprog.
      apply outcome_alerts, pressKey_alertContainer. }
    assert (Hdel : decided_board tw (deleteKey p)).
    { apply decided_board_in_progress. rewrite <- Hprog.
      apply outcome_alerts, deleteKey_alertContainer. }
    pose proof (decided_board_submitGuess d tw rows keys p Hr Hl) as Hsub.
    destruct e as [target|key].
    + unfold handleMouseClick. destruct (t_key target); [apply Hpress|].
      destruct (t_enter target); [exact Hsub|].
      destruct (t_delete target); [exact Hdel | exact IH].
    + unfold handleKeyPress.
      destruct (String.eqb key "Enter"); [exact Hsub|].
      destruct (_ || _); [exact Hdel|].
      destruct (JS.is_lower_letter key); [apply Hpress | exact IH].
Qed.

(** X12. What a decided game looks like, in every reachable page.  After a
    win the newest alert is "You Win", no tile is active and the last
    submitted row spells the word of the day.  After a loss the newest
    alert is the word of the day in upper case (shown without a duration)
    and the board is full: no tile is active and none is without a
    letter. *)
Theorem decided_game_board (d : list string) (tw : string) (rows : nat)
    (keys : list Key) (p : Page) :
  reachable d tw rows keys p →
  outcome p ≠ in_progress →
  decided_board tw p.
Proof. intros Hr _. by apply (decided_board_reachable d tw rows keys). Qed.

Lemma decided_game_board_witness :
  decided_board "crane"
    (run ["trace"; "crane"] "crane" (typing "trace" ++ typing "crane")
         (initial 6 qwerty)) ∧
  decided_board "knoll"
    (run ["trace"] "knoll"
         (typing "trace" ++ typing "trace" ++ typing "trace" ++
          typing "trace" ++ typing "trace" ++ typing "trace")
         (initial 6 qwerty)).
Proof.
  split.
  - apply (decided_game_board ["trace"; "crane"] "crane" 6 qwerty).
    + apply reachable_run. constructor.
    + vm_compute. discriminate.
  - apply (decided_game_board ["trace"] "knoll" 6 qwerty).
    + apply reachable_run. constructor.
    + vm_compute. discriminate.
Defined.

(** ** Submitted rows are final *)

Lemma board_shape_run (d : list string) (tw : string) (rows : nat)
    (es : list Event) (p : Page) (done act : list Tile) (n : nat) :
  board_shape rows (guessGrid p) done act n →
  ∃ ext act' n',
    board_shape rows (guessGrid (run d tw es p)) (done ++ ext) act' n'.
Proof.
  revert p done act n. induction es as [|e es IH]; intros p done act n Hs.
  - exists [], act, n. rewrite app_nil_r. exact Hs.
  - simpl. destruct (board_shape_dispatch d tw rows e p done act n Hs)
      as (ext & act' & n' & H).
    destruct (IH _ _ _ _ H) as (ext' & act'' & n'' & H').
    exists (ext ++ ext'), act'', n''. rewrite app_assoc. exact H'.
Qed.

Lemma board_shape_done_index (rows : nat) (g done act : list Tile) (n i : nat)
    (t : Tile) :
  board_shape rows g done act n →
  g !! i = Some t → tile_done t = true → done !! i = Some t.
Proof.
  intros (Hg & _ & Hact & _) Hi Ht. rewrite Hg in Hi.
  apply lookup_app_Some in Hi as [Hi|[_ Hi]]; [exact Hi|]. exfalso.
  apply tile_done_spec in Ht as [Hl Hs].
  apply lookup_app_Some in Hi as [Hi|[_ Hi]].
  - rewrite Forall_forall in Hact.
    assert (Hin : t ∈ act) by (apply list_elem_of_lookup; eauto).
    apply Hact, tile_active_spec in Hin as [_ Ha]. congruence.
  - apply lookup_replicate in Hi as [-> _]. discriminate.
Qed.

(** X13. A submitted row is final: once a tile of a reachable page has its
    letter and one of the three evaluated states, no sequence of events
    changes that tile again.  Neither [pressKey] nor [deleteKey] nor a
    later submission reaches behind the current row. *)
Theorem submitted_tiles_final (d : list string) (tw : string) (rows : nat)
    (keys : list Key) (p : Page) (es : list Event) (i : nat) (t : Tile) :
  reachable d tw rows keys p →
  guessGrid p !! i = Some t →
  tile_done t = true →
  guessGrid (run d tw es p) !! i = Some t.
Proof.
  intros Hr Hi Ht.
  destruct (board_shape_reachable d tw rows keys p Hr) as (done & act & n & Hs).
  pose proof (board_shape_done_index rows _ done act n i t Hs Hi Ht) as Hd.
  destruct (board_shape_run d tw rows es p done act n Hs)
    as (ext & act' & n' & (Hg & _)).
  rewrite Hg, <- app_assoc. apply lookup_app_l_Some. exact Hd.
Qed.

Lemma submitted_tiles_final_witness :
  let d := ["trace"; "crane"] in
  let p := run d "crane" (typing "trace") (initial 6 qwerty) in
  guessGrid (run d "crane"
               (keydown "Backspace" :: keydown "x" :: typing "crane") p) !! 3 =
  Some (mkTile (Some "c") "c" (Some "wrong-location")).
Proof.
  apply (submitted_tiles_final ["trace"; "crane"] "crane" 6 qwerty).
  - apply reachable_run. constructor.
  - reflexivity.
  - reflexivity.
Defined.

(** ** What is shown is what is evaluated *)

Lemma flip_grid_Forall (P : Tile → Prop) (tw : string) (j : nat)
    (g : list Tile) :
  (∀ t s, P t → P (set_state s t)) →
  Forall P g → Forall P (flip_grid tw j g).
Proof.
  intros HP H. revert j.
  induction H as [|t g Ht _ IH]; intros j; cbn [flip_grid]; [constructor|].
  destruct (state_active t); constructor; auto.
Qed.

Lemma toLowerCase_append (a b : string) :
  JS.toLowerCase (a ++ b) = (JS.toLowerCase a ++ JS.toLowerCase b)%string.
Proof.
  induction a as [|c a IH]; [reflexivity|].
  change (String (JS.lower_ascii c) (JS.toLowerCase (a ++ b)%string) =
          String (JS.lower_ascii c)
                 (JS.toLowerCase a ++ JS.toLowerCase b)%string).
  rewrite IH. reflexivity.
Qed.

Lemma consistent_reachable (d : list string) (tw : string) (rows : nat)
    (keys : list Key) (p : Page) :
  reachable d tw rows keys p → Forall tile_consistent (guessGrid p).
Proof.
  intros H. induction H as [|e p _ IH].
  - apply Forall_replicate. reflexivity.
  - assert (Hpress : ∀ key, Forall tile_consistent (guessGrid (pressKey key p))).
    { intros key. unfold pressKey. destruct (_ <=? _); [exact IH|].
      destruct (querySelector _ _); [|exact IH].
      apply Forall_insert; [exact IH | reflexivity]. }
    assert (Hdel : Forall tile_consistent (guessGrid (deleteKey p))).
    { unfold deleteKey. destruct (last _); [|exact IH].
      apply Forall_insert; [exact IH | reflexivity]. }
    assert (Hsub : Forall tile_consistent (guessGrid (submitGuess d tw p))).
    { destruct (submitGuess_guessGrid d tw p) as [->|(_ & _ & ->)];
        [exact IH|].
      apply flip_grid_Forall; [|exact IH]. intros t s Ht. exact Ht. }
    unfold dispatch. destruct (listening p); [|exact IH].
    destruct e as [target|key].
    + unfold handleMouseClick. destruct (t_key target); [apply Hpress|].
      destruct (t_enter target); [exact Hsub|].
      destruct (t_delete target); [exact Hdel | exact IH].
    + unfold handleKeyPress.
      destruct (String.eqb key "Enter"); [exact Hsub|].
      destruct (_ || _); [exact Hdel|].
      destruct (JS.is_lower_letter key); [apply Hpress | exact IH].
Qed.

Lemma word_of_lower (act : list Tile) :
  Forall tile_consistent act →
  Forall (λ t, tile_active t = true) act →
  JS.toLowerCase (word_of act) = word_of act.
Proof.
  induction act as [|t act IH] using rev_ind; intros Hc Ha; [reflexivity|].
  apply Forall_app in Hc as [Hc Ht]. apply Forall_app in Ha as [Ha Hta].
  inversion Ht as [|? ? Ht' _]; subst. inversion Hta as [|? ? Hta' _]; subst.
  rewrite word_of_snoc, toLowerCase_append, (IH Hc Ha). f_equal.
  unfold tile_consistent in Ht'.
  apply tile_active_spec in Hta' as [Hl _]. unfold not_data_letter in Hl.
  destruct (data_letter t) as [letter|]; [|discriminate].
  simpl. rewrite Ht'. apply toLowerCase_idem.
Qed.

(** X14. What is shown is what is evaluated: in every reachable page a tile
    without [data-letter] shows no text, a tile with one keeps the
    lower-cased form of the text it shows, and the word that [submitGuess]
    looks up in the list is in lower case. *)
Theorem shown_is_evaluated (d : list string) (tw : string) (rows : nat)
    (keys : list Key) (p : Page) :
  reachable d tw rows keys p →
  Forall tile_consistent (guessGrid p) ∧
  JS.toLowerCase (current_guess p) = current_guess p.
Proof.
  intros Hr. pose proof (consistent_reachable d tw rows keys p Hr) as Hc.
  split; [exact Hc|].
  destruct (board_shape_reachable d tw rows keys p Hr)
    as (done & act & n & Hg & Hdone & Hact & _).
  rewrite (current_guess_shape p done act n Hg Hdone Hact).
  apply word_of_lower; [|exact Hact].
  rewrite Hg in Hc. apply Forall_app in Hc as [_ Hc].
  apply Forall_app in Hc as [Hc _]. exact Hc.
Qed.

Lemma shown_is_evaluated_witness :
  let p := run [] "crane"
               [click (mkTarget (Some "Q") false false); keydown "w"]
               (initial 6 qwerty) in
  current_guess p = "qw" ∧
  Forall tile_consistent (guessGrid p) ∧
  JS.toLowerCase (current_guess p) = current_guess p.
Proof.
  split; [reflexivity|].
  apply (shown_is_evaluated [] "crane" 6 qwerty).
  apply reachable_run. constructor.
Defined.

(** ** Alerts *)

(** X15. Every event shows at most one alert, and the script shows no
    other alerts than "Not enough letters" and "Not in word list" (for one
    second), "You Win" (for five) and the word of the day in upper case
    (without a duration). *)
Theorem one_alert_per_event (d : list string) (tw : string) (e : Event)
    (p : Page) :
  alertContainer (dispatch d tw e p) = alertContainer p ∨
  ∃ a, alertContainer (dispatch d tw e p) = a :: alertContainer p ∧
       In a (script_alerts tw).
Proof.
  assert (Hsub : alertContainer (submitGuess d tw p) = alertContainer p ∨
                 ∃ a, alertContainer (submitGuess d tw p) =
                      a :: alertContainer p ∧ In a (script_alerts tw)).
  { destruct (decide (length (getActiveTiles p) = WORD_LENGTH)) as [Hfull|Hne].
    2:{ right. rewrite submitGuess_incomplete by assumption.
        eexists. split; [reflexivity|]. simpl. auto. }
    destruct (in_dictionary d (current_guess p)) eqn:Hd.
    2:{ right. rewrite submitGuess_invalid by assumption.
        eexists. split; [reflexivity|]. simpl. auto. }
    pose proof (submitGuess_valid_cases d tw p Hfull Hd) as H. cbn zeta in H.
    destruct (last_key p); [|left; apply H].
    destruct (String.eqb _ _).
    { right. eexists. split; [apply H|]. simpl. auto. }
    destruct (_ =? 0).
    { right. eexists. split; [apply H|]. simpl. auto. }
    left. apply H. }
  unfold dispatch. destruct (listening p); [|by left].
  destruct e as [target|key].
  - unfold handleMouseClick. destruct (t_key target).
    + left. apply pressKey_alertContainer.
    + destruct (t_enter target); [exact Hsub|].
      destruct (t_delete target); [|by left].
      left. apply deleteKey_alertContainer.
  - unfold handleKeyPress.
    destruct (String.eqb key "Enter"); [exact Hsub|].
    destruct (_ || _); [left; apply deleteKey_alertContainer|].
    destruct (JS.is_lower_letter key); [|by left].
    left. apply pressKey_alertContainer.
Qed.
